(** * Gaussian primes: the incremental primality grid of [gaussianprimes.py]

    A shallow embedding of the class [GaussInt] and of the counting
    functions [ti_no_waste] and [ti], followed by the properties of the
    grid cache and of the primality oracle.

    Conventions of the embedding
    - Python [int] is [Z]; [range] loop variables are [nat].
    - A radius is a Python number, [pynum]: an int or a float. A float is
      the rational [Q] it denotes; a rational radius written where a
      [pynum] is expected is the float radius of that value. An int radius
      that NumPy converts to a double behaves as the float of the same
      value ([ti_no_waste_int], [ti_int]).
    - [np.sqrt] is the correctly rounded square root of doubles; the model
      gives [int(np.sqrt(r))] for every double [r] below [2^106] and every
      int [r] below [2^53]. Above that it returns the exact integer root or
      one more, where the code returns a double of 53 significant bits.
    - An object with memo fields is a record; a method that may fill a memo
      field returns its result together with the updated object.
    - A raising computation is a value of [result]. *)

From Stdlib Require Import ZArith QArith Qround Qminmax Znumtheory Lia String Sorted.
From Stdlib Require Ascii DecimalString DecimalZ DecimalPos.
From stdpp Require Import prelude.

#[local] Open Scope Z_scope.

(** ** Exceptions and the error monad *)

Inductive exn : Type :=
| Exception (msg : string)   (* raise Exception("...") *)
| ValueError                 (* int(nan) *)
| TypeError                  (* np.sqrt on an int outside 64 bits *)
| IndexError.                (* list index out of range *)

Inductive result (A : Type) : Type :=
| Ok (x : A)
| Raise (e : exn).
Arguments Ok {A} x.
Arguments Raise {A} e.

#[global] Instance result_ret : MRet result := fun A x => Ok x.
#[global] Instance result_bind : MBind result := fun A B f m =>
  match m with
  | Ok x => f x
  | Raise e => Raise e
  end.

(** ** Python values reaching the constructor *)

Inductive pyval : Type :=
| PyInt (z : Z)
| PyBool (t : bool)
| PyFloat (q : Q)
| PyStr (s : string)
| PyNone.

(** [isinstance(v, int)]: [bool] is a subclass of [int], [True] and [False]
    being the integers 1 and 0. *)
Definition isinstance_int (v : pyval) : bool :=
  match v with
  | PyInt _ | PyBool _ => true
  | _ => false
  end.

(** The integer an instance of [int] equals. An entity built from a bool
    holds the bool object; it is modelled by the integer the bool equals
    ([True == 1]), which [norm], [isprime] and [__add__] treat alike. *)
Definition int_of (v : pyval) : Z :=
  match v with
  | PyInt z => z
  | PyBool t => Z.b2z t
  | _ => 0
  end.

(** ** External services *)

(** [sp.isprime(n)] on an integer: primality of [n] as a rational integer,
    here by trial division. *)
Definition sp_isprime (n : Z) : bool :=
  (1 <? n) &&
  forallb (fun d => negb (n mod d =? 0)) (Z.of_nat <$> seq 2 (Z.to_nat n - 2)).

(** A Python number passed as radius: an [int], or a [float] given by the
    rational it denotes. *)
Inductive pynum : Type :=
| PyNumInt (z : Z)
| PyNumFloat (q : Q).

Coercion PyNumFloat : Q >-> pynum.
Bind Scope Q_scope with pynum.

Definition num_value (r : pynum) : Q :=
  match r with
  | PyNumInt z => inject_Z z
  | PyNumFloat q => q
  end.

(** Whether [np.sqrt] can take its argument to a double: a float as it is,
    an int when it fits [int64] or [uint64]; any other int is kept as a
    Python object, on which the ufunc raises [TypeError]. *)
Definition np_fits (r : pynum) : bool :=
  match r with
  | PyNumInt z => (- 2 ^ 63 <=? z) && (z <? 2 ^ 64)
  | PyNumFloat _ => true
  end.

(** The integer part of the double [np.sqrt(r)], for a rational [r >= 0].
    With [k = floor(sqrt(r))], the correctly rounded root lies in
    [[k, k + 1]], and it is [k + 1] exactly when [sqrt(r)] is at least the
    midpoint between [k + 1] and the double just below it. That double is
    [k + 1 - 2^(j - 53)] for [j = ceil(log2(k + 1))], so the midpoint is
    [k + 1 - 2^(j - 54)], and with [s = 54 - j] the test is
    [(2^s * (k + 1) - 1)^2 <= r * 4^s]. *)
Definition np_floor_sqrt (r : Q) : Z :=
  let k := Z.sqrt (Qfloor r) in
  let s := 54 - Z.log2_up (k + 1) in
  let M := 2 ^ s * (k + 1) - 1 in
  if Qle_bool (inject_Z (M * M)) (r * inject_Z (4 ^ s)) then k + 1 else k.

(** [int(np.sqrt(r))]: [TypeError] when [np.sqrt] cannot take [r] to a
    double; for [r < 0] [np.sqrt] yields [nan] and [int(nan)] raises
    [ValueError]; otherwise the integer part of the rounded root. *)
Definition int_np_sqrt (r : pynum) : result nat :=
  if negb (np_fits r) then Raise TypeError
  else if Qle_bool 0 (num_value r) then
    Ok (Z.to_nat (np_floor_sqrt (num_value r)))
  else Raise ValueError.

(** [n <= r] for an integer [n] and a radius [r]. *)
Definition le_radius (n : Z) (r : Q) : bool := Qle_bool (inject_Z n) r.

(** ** The class [GaussInt] *)

Module GaussInt.

Record t : Type := mk {
  a : Z;
  b : Z;
  var_isprime : option bool;
  var_norm : option Z
}.

Definition set_var_norm (self : t) (n : Z) : t :=
  mk (a self) (b self) (var_isprime self) (Some n).

Definition set_var_isprime (self : t) (p : bool) : t :=
  mk (a self) (b self) (Some p) (var_norm self).

(** [__init__] *)
Definition init (x y : pyval) : result t :=
  if negb (isinstance_int x && isinstance_int y)
  then Raise (Exception "GaussInt must be given two integers")
  else Ok (mk (int_of x) (int_of y) None None).

(** [norm]: fills [var_norm] on the first call. *)
Definition norm (self : t) : Z * t :=
  match var_norm self with
  | None =>
      let n := a self ^ 2 + b self ^ 2 in
      (n, set_var_norm self n)
  | Some n => (n, self)
  end.

(** [isprime]: fills [var_isprime] on the first call; the last branch
    calls [norm], which may fill [var_norm] too. *)
Definition isprime (self : t) : bool * t :=
  match var_isprime self with
  | Some p => (p, self)
  | None =>
      if (a self =? 0) && (b self =? 0) then
        (false, set_var_isprime self false)
      else if (a self =? 1) && (b self =? 0) then
        (false, set_var_isprime self false)
      else if (a self =? 1) && (b self =? 1) then
        (true, set_var_isprime self true)
      else if (b self =? 0) && (a self mod 4 =? 3) && sp_isprime (a self) then
        (true, set_var_isprime self true)
      else
        let '(n, self) := norm self in
        (sp_isprime n, set_var_isprime self (sp_isprime n))
  end.

(** [__add__] *)
Definition add (self other : t) : result t :=
  init (PyInt (a self + a other)) (PyInt (b self + b other)).

Definition coords (self : t) : Z * Z := (a self, b self).

End GaussInt.

(** [GaussInt(a, b)] on two loop variables of a [range]. *)
Definition GaussInt_at (a b : nat) : result GaussInt.t :=
  GaussInt.init (PyInt (Z.of_nat a)) (PyInt (Z.of_nat b)).

(** [str(n)] of a Python [int]: its decimal digits, after a minus sign
    when it is negative. *)
Definition str_int (n : Z) : string :=
  DecimalString.NilZero.string_of_int (Z.to_int n).

(** [__str__] of an entity built from two ints:
    ["({},{})".format(self.a, self.b)]. *)
Definition GaussInt_str (self : GaussInt.t) : string :=
  String.append "("
    (String.append (str_int (GaussInt.a self))
       (String.append ","
          (String.append (str_int (GaussInt.b self)) ")"))).

(** ** The grid and the counting functions *)

(** [ints]: a list of rows, [ints[a][b]] meant to be [GaussInt(a, b)]. *)
Abbreviation grid := (list (list GaussInt.t)).

(** [range(lo, hi)] *)
Definition range (lo hi : nat) : list nat := seq lo (hi - lo).

(** The default grid built when [ints is None]. *)
Definition seed : result grid :=
  e00 ← GaussInt_at 0 0;
  e01 ← GaussInt_at 0 1;
  e10 ← GaussInt_at 1 0;
  e11 ← GaussInt_at 1 1;
  Ok [[e00; e01]; [e10; e11]].

(** [len(ints[0])] *)
Definition len_row0 (ints : grid) : result nat :=
  match ints !! 0%nat with
  | Some x => Ok (length x)
  | None => Raise IndexError
  end.

(** Step 1, one entry: [if y.norm() <= r: sum += y.isprime()]. *)
Definition count_entry (r : Q) (y : GaussInt.t) (sum : Z) : Z * GaussInt.t :=
  let '(n, y) := GaussInt.norm y in
  if le_radius n r then
    let '(p, y) := GaussInt.isprime y in
    (sum + Z.b2z p, y)
  else (sum, y).

(** [for y in x: ...] *)
Fixpoint count_row (r : Q) (x : list GaussInt.t) (sum : Z)
  : Z * list GaussInt.t :=
  match x with
  | [] => (sum, [])
  | y :: x' =>
      let '(sum, y) := count_entry r y sum in
      let '(sum, x') := count_row r x' sum in
      (sum, y :: x')
  end.

(** [for x in ints: ...] *)
Fixpoint count_existing (r : Q) (ints : grid) (sum : Z) : Z * grid :=
  match ints with
  | [] => (sum, [])
  | x :: ints' =>
      let '(sum, x) := count_row r x sum in
      let '(sum, ints') := count_existing r ints' sum in
      (sum, x :: ints')
  end.

(** The body shared by the inner loops of [ti_no_waste] and [ti]:
    [d = GaussInt(a, b); if (d.norm() <= r) and d.isprime(): sum += 1]. *)
Definition visit (r : Q) (a b : nat) (sum : Z) : result (Z * GaussInt.t) :=
  d ← GaussInt_at a b;
  let '(n, d) := GaussInt.norm d in
  let '(hit, d) :=
    if le_radius n r then GaussInt.isprime d else (false, d) in
  Ok (if hit then sum + 1 else sum, d).

(** [ints[a].append(d)] *)
Definition append_at (a : nat) (d : GaussInt.t) (ints : grid) : result grid :=
  match ints !! a with
  | Some row => Ok (<[a := row ++ [d]]> ints)
  | None => Raise IndexError
  end.

(** Step 2, inner loop: [for b in range(min_b, limit): ...]. *)
Fixpoint extend_row (r : Q) (a : nat) (bs : list nat) (sum : Z) (ints : grid)
  : result (Z * grid) :=
  match bs with
  | [] => Ok (sum, ints)
  | b :: bs' =>
      '(sum, d) ← visit r a b sum;
      ints ← append_at a d ints;
      extend_row r a bs' sum ints
  end.

(** The [if a >= orig_min_a: ... else: ...] of Step 2: the grid after the
    possible [ints.append([])], and [min_b]. *)
Definition open_row (orig_min_a orig_min_b a : nat) (ints : grid)
  : grid * nat :=
  if decide (orig_min_a ≤ a)%nat then (ints ++ [[]], 0%nat)
  else (ints, orig_min_b).

(** Step 2, outer loop: [for a in range(0, limit): ...]. *)
Fixpoint extend_rows (r : Q) (orig_min_a orig_min_b limit : nat)
    (rows : list nat) (sum : Z) (ints : grid) : result (Z * grid) :=
  match rows with
  | [] => Ok (sum, ints)
  | a :: rows' =>
      let '(ints, min_b) := open_row orig_min_a orig_min_b a ints in
      '(sum, ints) ← extend_row r a (range min_b limit) sum ints;
      extend_rows r orig_min_a orig_min_b limit rows' sum ints
  end.

Definition ti_no_waste (r : pynum) (ints : option grid)
  : result (Z * grid) :=
  ints ← match ints with None => seed | Some g => Ok g end;
  let orig_min_a := length ints in
  orig_min_b ← len_row0 ints;
  let '(sum, ints) := count_existing (num_value r) ints 0 in
  s ← int_np_sqrt r;
  extend_rows (num_value r) orig_min_a orig_min_b (s + 1) (range 0 (s + 1))
    sum ints.

(** [ti], inner and outer loop. *)
Fixpoint ti_row (r : Q) (a : nat) (bs : list nat) (sum : Z) : result Z :=
  match bs with
  | [] => Ok sum
  | b :: bs' =>
      '(sum, _) ← visit r a b sum;
      ti_row r a bs' sum
  end.

Fixpoint ti_rows (r : Q) (limit : nat) (rows : list nat) (sum : Z)
  : result Z :=
  match rows with
  | [] => Ok sum
  | a :: rows' =>
      sum ← ti_row r a (range 0 limit) sum;
      ti_rows r limit rows' sum
  end.

Definition ti (r : pynum) : result Z :=
  s ← int_np_sqrt r;
  ti_rows (num_value r) (s + 1) (range 0 (s + 1)) 0.

(** The drivers ([plot_ti], [debug_ti_no_waste]): the radii are fed one by
    one, each call receiving the grid the previous one returned. *)
Fixpoint feed (rs : list Q) (ints : option grid)
  : result (list (Z * grid)) :=
  match rs with
  | [] => Ok []
  | r :: rs' =>
      '(sum, g) ← ti_no_waste r ints;
      rest ← feed rs' (Some g);
      Ok ((sum, g) :: rest)
  end.

(** ** The utility function and the data the drivers compute *)

(** [gauss_to_coord_data], the loop [for cur in ints]: with [prime_only]
    unset [cur.isprime()] is not called ([or] short-circuits). *)
Fixpoint coord_data_loop (ints : list GaussInt.t) (prime_only : bool)
    (x y : list Z) : list Z * list Z * list GaussInt.t :=
  match ints with
  | [] => (x, y, [])
  | cur :: ints' =>
      let '(keep, cur) :=
        if negb prime_only then (true, cur) else GaussInt.isprime cur in
      let '(x, y) :=
        if keep then (x ++ [GaussInt.a cur], y ++ [GaussInt.b cur])
        else (x, y) in
      let '(x, y, ints') := coord_data_loop ints' prime_only x y in
      (x, y, cur :: ints')
  end.

Definition gauss_to_coord_data (ints : list GaussInt.t) (prime_only : bool)
  : list Z * list Z * list GaussInt.t :=
  coord_data_loop ints prime_only [] [].

(** [for row in ints: cur_x, cur_y = gauss_to_coord_data(row, ...);
    x.extend(cur_x); y.extend(cur_y)], as in [plot_primes] and
    [debug_gauss_to_coord_data]. *)
Fixpoint collect_rows (ints : grid) (prime_only : bool) (x y : list Z)
  : list Z * list Z * grid :=
  match ints with
  | [] => (x, y, [])
  | row :: ints' =>
      let '(cur_x, cur_y, row) := gauss_to_coord_data row prime_only in
      let '(x, y, ints') :=
        collect_rows ints' prime_only (x ++ cur_x) (y ++ cur_y) in
      (x, y, row :: ints')
  end.

(** [plot_primes(size)]: the lists [x] and [y] handed to [plt.scatter]. *)
Definition plot_primes (size : pynum) : result (list Z * list Z) :=
  '(_, ints) ← ti_no_waste size None;
  let '(x, y, _) := collect_rows ints true [] [] in
  Ok (x, y).

(** [plot_ti]: the list [s] handed to [ax.plot], given the array [t] that
    [np.arange(0, max_r, interval)] yields. *)
Fixpoint plot_ti_loop (t : list Q) (ints : grid) (s : list Z)
  : result (list Z) :=
  match t with
  | [] => Ok s
  | cur_num :: t' =>
      '(cur_sum, ints) ← ti_no_waste cur_num (Some ints);
      plot_ti_loop t' ints (s ++ [cur_sum])
  end.

Definition plot_ti_data (t : list Q) : result (list Z) :=
  '(_, ints) ← ti_no_waste (PyNumInt 0) None;
  plot_ti_loop t ints [].

(** [debug_ti_no_waste]: the pairs [(r, sum)] it prints, line by line. *)
Fixpoint debug_loop (rs : list nat) (ints : grid) (out : list (nat * Z))
  : result (list (nat * Z)) :=
  match rs with
  | [] => Ok out
  | r :: rs' =>
      '(sum, ints) ← ti_no_waste (PyNumInt (Z.of_nat r)) (Some ints);
      debug_loop rs' ints (out ++ [(r, sum)])
  end.

Definition debug_ti_no_waste : result (list (nat * Z)) :=
  '(_, ints) ← ti_no_waste (PyNumInt 1) None;
  debug_loop (range 0 100) ints [].

(** * Vocabulary of the properties *)

#[global] Instance prime_decision (n : Z) : Decision (prime n) := prime_dec n.

(** The value [isprime] computes for a freshly built [GaussInt(x, y)]. *)
Definition prime_at (x y : Z) : bool :=
  fst (GaussInt.isprime (GaussInt.mk x y None None)).

(** The memo fields of an entity are empty or hold what the methods
    compute from its coordinates. *)
Definition memo_ok (e : GaussInt.t) : Prop :=
  (GaussInt.var_norm e = None ∨
   GaussInt.var_norm e = Some (GaussInt.a e ^ 2 + GaussInt.b e ^ 2)) ∧
  (GaussInt.var_isprime e = None ∨
   GaussInt.var_isprime e = Some (prime_at (GaussInt.a e) (GaussInt.b e))).

(** Whether the point [(x, y)] is counted at radius [r]. *)
Definition hit (r : Q) (x y : Z) : bool :=
  le_radius (x ^ 2 + y ^ 2) r && prime_at x y.

Definition hitn (r : Q) (a b : nat) : Z :=
  Z.b2z (hit r (Z.of_nat a) (Z.of_nat b)).

(** The entry as Step 1 leaves it, and the entry Step 2 builds at [(a, b)]. *)
Definition touch (r : Q) (y : GaussInt.t) : GaussInt.t :=
  snd (count_entry r y 0).

Definition fresh (r : Q) (a b : nat) : GaussInt.t :=
  touch r (GaussInt.mk (Z.of_nat a) (Z.of_nat b) None None).

Definition touch_grid (r : Q) (g : grid) : grid :=
  (fun x : list GaussInt.t => touch r <$> x) <$> g.

Definition sumZ (f : nat → Z) (l : list nat) : Z :=
  foldr (fun x acc => f x + acc) 0 l.

(** The entry at position [b] of row [a] has coordinates [(a, b)]. *)
Definition coords_ok (g : grid) : Prop :=
  ∀ (a b : nat) (row : list GaussInt.t) (e : GaussInt.t),
    g !! a = Some row → row !! b = Some e →
    GaussInt.coords e = (Z.of_nat a, Z.of_nat b).

Definition grid_memo_ok (g : grid) : Prop :=
  ∀ (a b : nat) (row : list GaussInt.t) (e : GaussInt.t),
    g !! a = Some row → row !! b = Some e → memo_ok e.

(** Every row has length [m]. *)
Definition rows_len (m : nat) (g : grid) : Prop :=
  ∀ (a : nat) (row : list GaussInt.t), g !! a = Some row → length row = m.

(** [limit = int(np.sqrt(r)) + 1] as the code computes it for a radius
    [r >= 0], and [floor(sqrt(r)) + 1], which it can exceed by one. *)
Definition limit_of (r : Q) : nat := (Z.to_nat (np_floor_sqrt r) + 1)%nat.

Definition exact_limit (r : Q) : nat :=
  (Z.to_nat (Z.sqrt (Qfloor r)) + 1)%nat.

(** The double just below 25. *)
Definition below_25 : Q := (25 * 2 ^ 48 - 1) # (2 ^ 48).

(** The grid Step 2 leaves, given the grid [g] after Step 1, the row count
    [n] and the length [m] of row 0 on entry. *)
Definition extended (r : Q) (n m : nat) (g : grid) : grid :=
  imap (fun a row =>
          if decide (a < n `min` limit_of r)%nat
          then row ++ (fresh r a <$> range m (limit_of r)) else row) g
  ++ ((fun a => fresh r a <$> range 0 (limit_of r))
        <$> seq n (limit_of r - n)).

(** What Step 2 adds to the count. *)
Definition added (r : Q) (n m : nat) : Z :=
  sumZ (fun a => sumZ (hitn r a) (range m (limit_of r)))
       (seq 0 (n `min` limit_of r))
  + sumZ (fun a => sumZ (hitn r a) (range 0 (limit_of r)))
         (seq n (limit_of r - n)).

(** The default grid. *)
Definition seed_grid : grid :=
  [[GaussInt.mk 0 0 None None; GaussInt.mk 0 1 None None];
   [GaussInt.mk 1 0 None None; GaussInt.mk 1 1 None None]].

(** A grid of [n] rows, each of length [m], every entry at its place. *)
Definition rect (n m : nat) (g : grid) : Prop :=
  length g = n ∧ rows_len m g ∧ coords_ok g.

(** The grids the calls produce: square, with sound memo fields. *)
Definition square (n : nat) (g : grid) : Prop :=
  rect n n g ∧ grid_memo_ok g.

(** The count of the square below the limit: the value of [ti]. *)
Definition total (r : Q) : Z :=
  sumZ (fun a => sumZ (hitn r a) (seq 0 (limit_of r))) (seq 0 (limit_of r)).

(** No row of [g] is missing from [g'] or longer than in [g']. *)
Definition grows (g g' : grid) : Prop :=
  ∀ (a : nat) (row : list GaussInt.t),
    g !! a = Some row →
    ∃ row', g' !! a = Some row' ∧ (length row ≤ length row')%nat.

Definition nonneg (r : Q) : Prop := (0 <= r)%Q.

(** The rows of a grid as coordinate pairs. *)
Definition coords_of (g : grid) : list (list (Z * Z)) :=
  (fun row : list GaussInt.t => GaussInt.coords <$> row) <$> g.

(** A grid with rows of different lengths, each entry at its place. *)
Definition ragged_grid : grid :=
  [[GaussInt.mk 0 0 None None];
   [GaussInt.mk 1 0 None None; GaussInt.mk 1 1 None None]].

Definition row_grid : grid :=
  [[GaussInt.mk 0 0 None None; GaussInt.mk 0 1 None None;
    GaussInt.mk 0 2 None None]].

(** The methods of [GaussInt] that touch the memo fields, and the entity
    after a sequence of calls. *)
Inductive method : Type := call_norm | call_isprime.

Definition invoke (e : GaussInt.t) (m : method) : GaussInt.t :=
  match m with
  | call_norm => snd (GaussInt.norm e)
  | call_isprime => snd (GaussInt.isprime e)
  end.

Definition after (ms : list method) (e : GaussInt.t) : GaussInt.t :=
  foldl invoke e ms.

(** Every entry of a grid satisfies [P]. *)
Definition grid_all (P : GaussInt.t → Prop) (g : grid) : Prop :=
  ∀ (a b : nat) (row : list GaussInt.t) (e : GaussInt.t),
    g !! a = Some row → row !! b = Some e → P e.

(** The points [(a, b)] with [a, b < B], row by row. *)
Definition lattice (B : nat) : list (nat * nat) :=
  a ← seq 0 B; (fun b => (a, b)) <$> seq 0 B.

Definition point (p : nat * nat) : Z * Z := (Z.of_nat p.1, Z.of_nat p.2).

(** Whether a lattice point is counted at radius [r]. *)
Definition counted (r : Q) (p : nat * nat) : bool :=
  hit r (Z.of_nat p.1) (Z.of_nat p.2).

(** The square grid of size [N] whose entry at [(a, b)] is the one a call
    with radius [r] builds there. *)
Definition full (r : Q) (N : nat) : grid :=
  (fun a => fresh r a <$> seq 0 N) <$> seq 0 N.

(** The size of the grid after a call from the seed with radius [r]. *)
Definition size_for (r : Q) : nat := (2 `max` limit_of r)%nat.

(** [gauss_to_coord_data]: whether an entity is put out, and the entity as
    the loop leaves it. *)
Definition kept (prime_only : bool) (e : GaussInt.t) : bool :=
  negb prime_only || fst (GaussInt.isprime e).

Definition seen (prime_only : bool) (e : GaussInt.t) : GaussInt.t :=
  if prime_only then snd (GaussInt.isprime e) else e.

(** Whether the character [c] occurs in [s]. *)
Fixpoint has_char (c : Ascii.ascii) (s : string) : bool :=
  match s with
  | EmptyString => false
  | String d s' => Ascii.eqb c d || has_char c s'
  end.

(** * Properties *)

(** ** The external services *)

Lemma le_radius_floor (n : Z) (r : Q) : le_radius n r = (n <=? Qfloor r).
Proof.
  unfold le_radius. apply eq_true_iff_eq.
  rewrite Qle_bool_iff, Z.leb_le. split; intros H.
  - apply Qfloor_resp_le in H. by rewrite Qfloor_Z in H.
  - eapply Qle_trans; [| apply Qfloor_le]. by rewrite <- Zle_Qle.
Qed.

Lemma Qfloor_nonneg (r : Q) : Qle_bool 0 r = true → 0 <= Qfloor r.
Proof.
  intros H. apply Qle_bool_iff, Qfloor_resp_le in H. exact H.
Qed.

(** The rounded root is the exact one, or one more. *)
Lemma np_floor_sqrt_bounds (r : Q) :
  Z.sqrt (Qfloor r) <= np_floor_sqrt r <= Z.sqrt (Qfloor r) + 1.
Proof. unfold np_floor_sqrt. cbv zeta. case_match; lia. Qed.

Lemma np_floor_sqrt_mono (r1 r2 : Q) :
  (r1 <= r2)%Q → np_floor_sqrt r1 <= np_floor_sqrt r2.
Proof.
  intros H. pose proof (Qfloor_resp_le _ _ H) as Hf.
  apply Z.sqrt_le_mono in Hf.
  destruct (Z.eq_dec (Z.sqrt (Qfloor r1)) (Z.sqrt (Qfloor r2)))
    as [Heq | Hne].
  - unfold np_floor_sqrt. cbv zeta. rewrite Heq.
    set (k := Z.sqrt (Qfloor r2)). set (s := 54 - Z.log2_up (k + 1)).
    set (M := 2 ^ s * (k + 1) - 1).
    destruct (Qle_bool _ (r1 * _)) eqn:H1; [| case_match; lia].
    replace (Qle_bool _ (r2 * _)) with true; [lia |].
    symmetry. apply Qle_bool_iff. apply Qle_bool_iff in H1.
    eapply Qle_trans; [exact H1 |].
    apply Qmult_le_compat_r; [done |].
    rewrite <- (Zle_Qle 0). apply Z.pow_nonneg. lia.
  - pose proof (np_floor_sqrt_bounds r1).
    pose proof (np_floor_sqrt_bounds r2). lia.
Qed.

Lemma np_floor_sqrt_comp (r1 r2 : Q) :
  r1 == r2 → np_floor_sqrt r1 = np_floor_sqrt r2.
Proof.
  intros H. apply Z.le_antisymm; apply np_floor_sqrt_mono;
    rewrite H; apply Qle_refl.
Qed.

(** On an integer below [2^52] the rounded root is the exact one. *)
Lemma np_floor_sqrt_int (z : Z) :
  0 <= z < 2 ^ 52 → np_floor_sqrt (inject_Z z) = Z.sqrt z.
Proof.
  intros Hz. unfold np_floor_sqrt. cbv zeta. rewrite Qfloor_Z.
  set (k := Z.sqrt z).
  assert (Hk : 0 <= k) by apply Z.sqrt_nonneg.
  pose proof (Z.sqrt_spec z ltac:(lia)) as Hs. cbv zeta in Hs. fold k in Hs.
  assert (Hk1 : k + 1 <= 2 ^ 26).
  { destruct (Z.le_gt_cases (k + 1) (2 ^ 26)) as [? | Hgt]; [done |].
    assert (2 ^ 26 * 2 ^ 26 <= k * k) by nia.
    change (2 ^ 26 * 2 ^ 26) with (2 ^ 52) in *. lia. }
  set (j := Z.log2_up (k + 1)).
  assert (Hj : 0 <= j <= 26).
  { split; [apply Z.log2_up_nonneg |].
    unfold j. change 26 with (Z.log2_up (2 ^ 26)).
    by apply Z.log2_up_le_mono. }
  assert (Hpow : k + 1 <= 2 ^ j).
  { destruct (Z.eq_dec (k + 1) 1) as [-> | ?].
    - unfold j. simpl. lia.
    - apply Z.log2_up_spec. lia. }
  set (s := 54 - j). set (M := 2 ^ s * (k + 1) - 1).
  replace (Qle_bool _ _) with false; [done |].
  symmetry. apply not_true_is_false. rewrite Qle_bool_iff.
  rewrite <- inject_Z_mult, <- Zle_Qle.
  assert (Hs2 : 2 ^ 54 = 2 ^ s * 2 ^ j).
  { unfold s. rewrite <- Z.pow_add_r by lia. f_equal. lia. }
  assert (H4 : 4 ^ s = 2 ^ s * 2 ^ s).
  { change 4 with (2 ^ 2). rewrite <- Z.pow_mul_r by lia.
    rewrite <- Z.pow_add_r by lia. f_equal. lia. }
  assert (Hsp : 2 ^ 28 <= 2 ^ s) by (apply Z.pow_le_mono_r; lia).
  assert (0 < 2 ^ j) by (apply Z.pow_pos_nonneg; lia).
  rewrite H4. unfold M. set (P := 2 ^ s) in *.
  assert (HP : 2 * (k + 1) < P).
  { assert (P * (k + 1) <= P * 2 ^ j) by nia.
    assert (2 ^ 54 = 2 ^ 28 * 2 ^ 26) by done. nia. }
  nia.
Qed.

Lemma limit_of_int (z : Z) :
  0 <= z < 2 ^ 52 → limit_of (inject_Z z) = exact_limit (inject_Z z).
Proof.
  intros Hz. unfold limit_of, exact_limit.
  by rewrite np_floor_sqrt_int, Qfloor_Z.
Qed.

(** [sp_isprime] decides primality of a rational integer. *)
Lemma sp_isprime_prime (n : Z) : sp_isprime n = true ↔ prime n.
Proof.
  rewrite <- prime_alt. unfold sp_isprime, Z.prime.
  rewrite andb_true_iff, Z.ltb_lt, forallb_forall. split.
  - intros [Hn H]. split; [done |]. intros d Hd Hdiv.
    assert (Hin : In d (Z.of_nat <$> seq 2 (Z.to_nat n - 2))).
    { apply list_elem_of_In, list_elem_of_fmap. exists (Z.to_nat d).
      split; [lia |]. apply list_elem_of_In, in_seq. lia. }
    apply H in Hin. apply negb_true_iff, Z.eqb_neq in Hin.
    apply Hin, Z.mod_divide; [lia | done].
  - intros [Hn H]. split; [done |]. intros d Hin.
    apply list_elem_of_In, list_elem_of_fmap in Hin as (k & -> & Hk).
    apply list_elem_of_In, in_seq in Hk.
    apply negb_true_iff, Z.eqb_neq. intros Hmod.
    apply (H (Z.of_nat k)); [lia |]. apply Z.mod_divide; [lia | done].
Qed.

Lemma sp_isprime_decide (n : Z) : sp_isprime n = bool_decide (prime n).
Proof.
  apply eq_true_iff_eq. by rewrite sp_isprime_prime, bool_decide_eq_true.
Qed.

(** ** The entity: memo fields *)

Lemma norm_coords (e : GaussInt.t) :
  GaussInt.coords (snd (GaussInt.norm e)) = GaussInt.coords e.
Proof. unfold GaussInt.norm. by destruct (GaussInt.var_norm e). Qed.

Lemma isprime_coords (e : GaussInt.t) :
  GaussInt.coords (snd (GaussInt.isprime e)) = GaussInt.coords e.
Proof.
  unfold GaussInt.isprime.
  destruct (GaussInt.var_isprime e); [done |].
  repeat case_match; try done.
  subst. simpl. change (GaussInt.coords e) with (GaussInt.coords e).
  match goal with H : GaussInt.norm e = _ |- _ =>
    pose proof (norm_coords e) as Hc; rewrite H in Hc end.
  done.
Qed.

Lemma norm_memo_ok (e : GaussInt.t) :
  memo_ok e →
  fst (GaussInt.norm e) = GaussInt.a e ^ 2 + GaussInt.b e ^ 2 ∧
  memo_ok (snd (GaussInt.norm e)).
Proof.
  destruct e as [x y ip vn]. unfold memo_ok, GaussInt.norm. simpl.
  intros [[-> | ->] Hp]; simpl; auto.
Qed.

Lemma isprime_memo_ok (e : GaussInt.t) :
  memo_ok e →
  fst (GaussInt.isprime e) = prime_at (GaussInt.a e) (GaussInt.b e) ∧
  memo_ok (snd (GaussInt.isprime e)).
Proof.
  pose proof (isprime_coords e) as Hc. unfold GaussInt.coords in Hc.
  injection Hc as Ha Hb. unfold memo_ok. rewrite Ha, Hb. clear Ha Hb.
  destruct e as [x y ip vn]. simpl.
  intros [Hn [-> | ->]]; [| by unfold GaussInt.isprime; simpl; auto].
  unfold prime_at, GaussInt.isprime, GaussInt.norm,
    GaussInt.set_var_isprime, GaussInt.set_var_norm.
  destruct Hn as [-> | ->]; cbn -[Z.pow Z.modulo sp_isprime Z.eqb];
    destruct (x =? 0), (y =? 0), (x =? 1), (y =? 1), (x mod 4 =? 3),
      (sp_isprime x); cbn -[Z.pow Z.modulo sp_isprime Z.eqb]; auto.
Qed.

Lemma invoke_memo_ok (e : GaussInt.t) (m : method) :
  memo_ok e → memo_ok (invoke e m).
Proof.
  intros He. destruct m; simpl;
    [by apply norm_memo_ok | by apply isprime_memo_ok].
Qed.

Lemma invoke_coords (e : GaussInt.t) (m : method) :
  GaussInt.coords (invoke e m) = GaussInt.coords e.
Proof. destruct m; [apply norm_coords | apply isprime_coords]. Qed.

Lemma after_inv (ms : list method) (e : GaussInt.t) :
  memo_ok e →
  memo_ok (after ms e) ∧ GaussInt.coords (after ms e) = GaussInt.coords e.
Proof.
  unfold after. revert e. induction ms as [| m ms IH]; intros e He; [done |].
  simpl. destruct (IH (invoke e m) (invoke_memo_ok e m He)) as [H1 H2].
  split; [done |]. by rewrite H2, invoke_coords.
Qed.

(** ** One entry: Step 1 and the loop body of Step 2 *)

Lemma count_entry_sum (r : Q) (y : GaussInt.t) (sum : Z) :
  count_entry r y sum = (sum + fst (count_entry r y 0), touch r y).
Proof.
  unfold touch, count_entry. destruct (GaussInt.norm y) as [n y1].
  destruct (le_radius n r); [| by rewrite Z.add_0_r].
  by destruct (GaussInt.isprime y1).
Qed.

Lemma touch_coords (r : Q) (y : GaussInt.t) :
  GaussInt.coords (touch r y) = GaussInt.coords y.
Proof.
  unfold touch, count_entry. pose proof (norm_coords y) as Hn.
  destruct (GaussInt.norm y) as [n y1]. simpl in Hn.
  destruct (le_radius n r); [| done].
  pose proof (isprime_coords y1) as Hp.
  destruct (GaussInt.isprime y1) as [p y2]. simpl in *. congruence.
Qed.

Lemma count_entry_memo_ok (r : Q) (y : GaussInt.t) :
  memo_ok y →
  fst (count_entry r y 0) = Z.b2z (hit r (GaussInt.a y) (GaussInt.b y)) ∧
  memo_ok (touch r y).
Proof.
  intros Hy. unfold touch, count_entry, hit.
  destruct (norm_memo_ok y Hy) as [Hn Hy1].
  pose proof (norm_coords y) as Hc.
  destruct (GaussInt.norm y) as [n y1]. simpl in Hn, Hy1, Hc. subst n.
  destruct (le_radius _ r); [| done].
  destruct (isprime_memo_ok y1 Hy1) as [Hp Hy2].
  destruct (GaussInt.isprime y1) as [p y2]. simpl in Hp, Hy2 |- *.
  injection Hc as <- <-. by subst p.
Qed.

Lemma visit_eq (r : Q) (a b : nat) (sum : Z) :
  visit r a b sum = Ok (sum + hitn r a b, fresh r a b).
Proof.
  unfold visit, GaussInt_at, GaussInt.init.
  cbn [isinstance_int andb negb int_of mbind result_bind].
  set (d := GaussInt.mk (Z.of_nat a) (Z.of_nat b) None None).
  assert (Hd : memo_ok d) by (split; by left).
  destruct (count_entry_memo_ok r d Hd) as [Hc _].
  unfold hitn, fresh, touch. fold d. change (Z.of_nat a) with (GaussInt.a d).
  change (Z.of_nat b) with (GaussInt.b d). rewrite <- Hc.
  unfold count_entry. destruct (GaussInt.norm d) as [n d1].
  destruct (le_radius n r); simpl.
  - destruct (GaussInt.isprime d1) as [[] d2]; simpl; do 2 f_equal; lia.
  - by rewrite Z.add_0_r.
Qed.

Lemma fresh_coords (r : Q) (a b : nat) :
  GaussInt.coords (fresh r a b) = (Z.of_nat a, Z.of_nat b).
Proof. unfold fresh. by rewrite touch_coords. Qed.

Lemma fresh_memo_ok (r : Q) (a b : nat) : memo_ok (fresh r a b).
Proof. apply count_entry_memo_ok. split; by left. Qed.

(** ** Sums over index lists *)

Lemma sumZ_app (f : nat → Z) (l1 l2 : list nat) :
  sumZ f (l1 ++ l2) = sumZ f l1 + sumZ f l2.
Proof. induction l1 as [| x l1 IH]; simpl; [done | rewrite IH; lia]. Qed.

Lemma sumZ_ext (f g : nat → Z) (l : list nat) :
  (∀ x, x ∈ l → f x = g x) → sumZ f l = sumZ g l.
Proof.
  induction l as [| x l IH]; intros H; simpl; [done |].
  rewrite (H x), IH; [done | |]; [intros; apply H |]; set_solver.
Qed.

Lemma sumZ_zero (f : nat → Z) (l : list nat) :
  (∀ x, x ∈ l → f x = 0) → sumZ f l = 0.
Proof.
  induction l as [| x l IH]; intros H; simpl; [done |].
  rewrite (H x), IH; [done | |]; [intros; apply H |]; set_solver.
Qed.

Lemma sumZ_plus (f g : nat → Z) (l : list nat) :
  sumZ (fun x => f x + g x) l = sumZ f l + sumZ g l.
Proof. induction l as [| x l IH]; simpl; [done | rewrite IH; lia]. Qed.

(** ** Step 1 on rows and grids *)

Lemma count_row_sum (r : Q) (x : list GaussInt.t) (sum : Z) :
  count_row r x sum = (sum + fst (count_row r x 0), touch r <$> x).
Proof.
  revert sum. induction x as [| y x IH]; intros sum; simpl.
  { by rewrite Z.add_0_r. }
  rewrite (count_entry_sum r y sum), (count_entry_sum r y 0).
  rewrite (IH (sum + _)), (IH (0 + _)). simpl. f_equal. lia.
Qed.

Lemma count_existing_sum (r : Q) (g : grid) (sum : Z) :
  count_existing r g sum =
  (sum + fst (count_existing r g 0), touch_grid r g).
Proof.
  unfold touch_grid.
  revert sum. induction g as [| x g IH]; intros sum; simpl.
  { by rewrite Z.add_0_r. }
  rewrite (count_row_sum r x sum), (count_row_sum r x 0).
  rewrite (IH (sum + _)), (IH (0 + _)). simpl. f_equal. lia.
Qed.

(** ** Step 1 on a grid with every entry at its place *)

Lemma count_row_hits (r : Q) (a : nat) (x : list GaussInt.t) (k : nat) :
  (∀ b e, x !! b = Some e →
     GaussInt.coords e = (Z.of_nat a, Z.of_nat (k + b)) ∧ memo_ok e) →
  fst (count_row r x 0) = sumZ (hitn r a) (seq k (length x)).
Proof.
  revert k. induction x as [| y x IH]; intros k H; [done |].
  simpl. rewrite count_entry_sum, count_row_sum. simpl.
  destruct (H 0%nat y eq_refl) as [Hc Hy].
  destruct (count_entry_memo_ok r y Hy) as [-> _].
  injection Hc as -> ->. rewrite Nat.add_0_r. fold (hitn r a k).
  rewrite (IH (S k)); [lia |].
  intros b e Hb. rewrite Nat.add_succ_l, <- Nat.add_succ_r. by apply H.
Qed.

Lemma count_existing_hits (r : Q) (g : grid) (k m : nat) :
  (∀ i row, g !! i = Some row →
     length row = m ∧
     ∀ b e, row !! b = Some e →
       GaussInt.coords e = (Z.of_nat (k + i), Z.of_nat b) ∧ memo_ok e) →
  fst (count_existing r g 0) =
  sumZ (fun a => sumZ (hitn r a) (seq 0 m)) (seq k (length g)).
Proof.
  revert k. induction g as [| x g IH]; intros k H; [done |].
  simpl. rewrite count_row_sum, count_existing_sum. simpl.
  destruct (H 0%nat x eq_refl) as [Hm Hx].
  rewrite (count_row_hits r k x 0), Hm.
  2:{ intros b e Hb. destruct (Hx b e Hb) as [Hc He].
      by rewrite Nat.add_0_r in Hc. }
  rewrite (IH (S k)); [lia |].
  intros i row Hi. destruct (H (S i) row Hi) as [Hl Hr].
  split; [done |]. intros b e Hb.
  rewrite Nat.add_succ_l, <- Nat.add_succ_r. by apply Hr.
Qed.

(** ** Step 2 *)

Lemma extend_row_eq (r : Q) (a : nat) (bs : list nat) (sum : Z)
    (ints : grid) (row : list GaussInt.t) :
  ints !! a = Some row →
  extend_row r a bs sum ints =
  Ok (sum + sumZ (hitn r a) bs, <[a := row ++ (fresh r a <$> bs)]> ints).
Proof.
  revert sum ints row. induction bs as [| b bs IH]; intros sum ints row Hrow.
  { simpl. by rewrite Z.add_0_r, app_nil_r, list_insert_id. }
  cbn [extend_row]. rewrite visit_eq. cbn [mbind result_bind].
  unfold append_at. rewrite Hrow. cbn [mbind result_bind].
  assert (Ha : (a < length ints)%nat) by by eapply lookup_lt_Some.
  rewrite (IH _ _ (row ++ [fresh r a b])).
  2:{ by apply list_lookup_insert_eq. }
  rewrite list_insert_insert_eq, <- app_assoc. simpl.
  do 2 f_equal. lia.
Qed.

Lemma extend_rows_app (r : Q) (n m L : nat) (l1 l2 : list nat) (sum : Z)
    (ints : grid) :
  extend_rows r n m L (l1 ++ l2) sum ints =
  '(sum, ints) ← extend_rows r n m L l1 sum ints;
  extend_rows r n m L l2 sum ints.
Proof.
  revert sum ints. induction l1 as [| a l1 IH]; intros sum ints; [done |].
  simpl. destruct (open_row n m a ints) as [ints1 min_b].
  destruct (extend_row r a (range min_b L) sum ints1) as [[sum2 ints2] | e];
    [| done].
  cbn [mbind result_bind]. apply IH.
Qed.

(** Rows that were present on entry: [min_b] is [orig_min_b]. *)
Lemma extend_rows_old (r : Q) (n m L j k : nat) (sum : Z) (g : grid) :
  (k + j ≤ n)%nat → (n ≤ length g)%nat →
  extend_rows r n m L (seq k j) sum g =
  Ok (sum + sumZ (fun a => sumZ (hitn r a) (range m L)) (seq k j),
      imap (fun a row =>
              if decide (k ≤ a < k + j)%nat
              then row ++ (fresh r a <$> range m L) else row) g).
Proof.
  revert k sum g. induction j as [| j IH]; intros k sum g Hk Hn.
  { simpl. rewrite Z.add_0_r. do 2 f_equal. apply list_eq. intros i.
    rewrite list_lookup_imap. destruct (g !! i); [| done]. simpl.
    by rewrite decide_False by lia. }
  cbn [seq extend_rows]. unfold open_row. rewrite decide_False by lia.
  destruct (lookup_lt_is_Some_2 g k) as [row Hrow]; [lia |].
  rewrite (extend_row_eq _ _ _ _ _ row Hrow). cbn [mbind result_bind].
  rewrite IH; [| lia | by rewrite length_insert].
  cbn [sumZ foldr]. f_equal. f_equal; [unfold sumZ; lia |].
  apply list_eq. intros i. rewrite !list_lookup_imap.
  destruct (decide (i = k)) as [-> | Hi].
  - rewrite list_lookup_insert_eq by lia. rewrite Hrow. simpl.
    by rewrite decide_False, decide_True by lia.
  - rewrite list_lookup_insert_ne by done.
    destruct (g !! i); [| done]. simpl.
    destruct (decide (k ≤ i < k + S j)%nat);
      [rewrite decide_True by lia | rewrite decide_False by lia]; done.
Qed.

(** Rows beyond the row count on entry: a new row, filled from [b = 0]. *)
Lemma extend_rows_new (r : Q) (n m L j : nat) (sum : Z) (g : grid) :
  (n ≤ length g)%nat →
  extend_rows r n m L (seq (length g) j) sum g =
  Ok (sum + sumZ (fun a => sumZ (hitn r a) (range 0 L)) (seq (length g) j),
      g ++ ((fun a => fresh r a <$> range 0 L) <$> seq (length g) j)).
Proof.
  revert sum g. induction j as [| j IH]; intros sum g Hn.
  { simpl. by rewrite Z.add_0_r, app_nil_r. }
  cbn [seq extend_rows]. unfold open_row. rewrite decide_True by lia.
  rewrite (extend_row_eq _ _ _ _ _ []).
  2:{ by rewrite lookup_app_r, Nat.sub_diag. }
  cbn [mbind result_bind].
  assert (Hg : <[length g := [] ++ (fresh r (length g) <$> range 0 L)]>
                 (g ++ [[]]) =
               g ++ [fresh r (length g) <$> range 0 L]).
  { rewrite insert_app_r_alt, Nat.sub_diag by lia. done. }
  rewrite Hg.
  assert (Hl : length (g ++ [fresh r (length g) <$> range 0 L])
               = S (length g)).
  { rewrite length_app. simpl. lia. }
  rewrite <- Hl, IH by lia. rewrite Hl.
  cbn [sumZ foldr fmap list_fmap]. rewrite <- app_assoc. simpl.
  do 2 f_equal. unfold sumZ. lia.
Qed.

(** ** One call of [ti_no_waste] *)

Lemma touch_grid_length (r : Q) (g : grid) :
  length (touch_grid r g) = length g.
Proof. unfold touch_grid. by rewrite length_fmap. Qed.

Lemma touch_grid_lookup (r : Q) (g : grid) (a : nat) :
  touch_grid r g !! a = (fun x : list GaussInt.t => touch r <$> x) <$> g !! a.
Proof. unfold touch_grid. by rewrite list_lookup_fmap. Qed.

Lemma ti_no_waste_eq (r : Q) (g : grid) (row0 : list GaussInt.t) :
  g !! 0%nat = Some row0 → Qle_bool 0 r = true →
  ti_no_waste r (Some g) =
  Ok (fst (count_existing r g 0) + added r (length g) (length row0),
      extended r (length g) (length row0) (touch_grid r g)).
Proof.
  intros Hrow0 Hr. unfold ti_no_waste, len_row0, int_np_sqrt.
  cbn [mbind result_bind num_value np_fits negb].
  rewrite Hrow0, Hr. cbn [mbind result_bind].
  rewrite count_existing_sum. cbn [mbind result_bind fst].
  fold (limit_of r). set (L := limit_of r). set (n := length g).
  set (m := length row0).
  assert (Hseq : range 0 L = seq 0 (n `min` L) ++ seq n (L - n)).
  { unfold range. rewrite Nat.sub_0_r.
    destruct (decide (L ≤ n)%nat).
    - replace (L - n)%nat with 0%nat by lia.
      rewrite Nat.min_r by lia. by rewrite app_nil_r.
    - rewrite Nat.min_l by lia.
      replace L with (n + (L - n))%nat at 1 by lia. by rewrite seq_app. }
  rewrite Hseq, extend_rows_app.
  rewrite extend_rows_old;
    [| lia | rewrite touch_grid_length; fold n; lia].
  cbn [mbind result_bind].
  set (g1 := imap _ (touch_grid r g)).
  assert (Hl : length g1 = n).
  { unfold g1. by rewrite length_imap, touch_grid_length. }
  rewrite <- Hl at 2. rewrite extend_rows_new by lia. rewrite Hl.
  unfold added, extended. fold L n m.
  f_equal. f_equal; [lia |]. f_equal.
  unfold g1. apply imap_ext. intros a row _.
  destruct (decide (a < n `min` L)%nat);
    [rewrite decide_True by lia | rewrite decide_False by lia]; done.
Qed.

(** An empty list passed as grid: [len(ints[0])] raises. *)
Lemma ti_no_waste_empty (r : Q) : ti_no_waste r (Some []) = Raise IndexError.
Proof. reflexivity. Qed.

(** The limit computation of a radius that is an int or a float. *)
Lemma int_np_sqrt_nonneg (r : Q) :
  nonneg r → int_np_sqrt r = Ok (limit_of r - 1)%nat.
Proof.
  intros Hr. unfold int_np_sqrt, limit_of. cbn [num_value np_fits negb].
  rewrite (proj2 (Qle_bool_iff 0 r) Hr). f_equal. lia.
Qed.

Lemma int_np_sqrt_negative (r : pynum) :
  (num_value r < 0)%Q →
  int_np_sqrt r = Raise (if np_fits r then ValueError else TypeError).
Proof.
  intros Hr. unfold int_np_sqrt. destruct (np_fits r); [| done].
  cbn [negb]. replace (Qle_bool 0 (num_value r)) with false; [done |].
  symmetry. apply not_true_is_false. rewrite Qle_bool_iff.
  by apply Qlt_not_le.
Qed.

(** A radius the limit computation rejects: the call raises after Step 1. *)
Lemma ti_no_waste_rejected (r : pynum) (g : grid) (row0 : list GaussInt.t)
    (e : exn) :
  g !! 0%nat = Some row0 → int_np_sqrt r = Raise e →
  ti_no_waste r (Some g) = Raise e.
Proof.
  intros Hrow0 Hr. unfold ti_no_waste, len_row0.
  cbn [mbind result_bind]. rewrite Hrow0, Hr. cbn [mbind result_bind].
  by destruct (count_existing (num_value r) g 0).
Qed.

(** An int radius that [np.sqrt] takes to a double is the float radius of
    the same value. *)
Lemma ti_no_waste_int (z : Z) (ints : option grid) :
  np_fits (PyNumInt z) = true →
  ti_no_waste (PyNumInt z) ints = ti_no_waste (inject_Z z) ints.
Proof.
  intros Hz. unfold ti_no_waste, int_np_sqrt. by rewrite Hz.
Qed.


(** A negative radius: [int(np.sqrt(r))] raises after Step 1. *)
Lemma ti_no_waste_negative (r : Q) (g : grid) (row0 : list GaussInt.t) :
  g !! 0%nat = Some row0 → Qle_bool 0 r = false →
  ti_no_waste r (Some g) = Raise ValueError.
Proof.
  intros Hrow0 Hr. unfold ti_no_waste, len_row0, int_np_sqrt.
  cbn [mbind result_bind num_value np_fits negb].
  rewrite Hrow0, Hr. cbn [mbind result_bind].
  by destruct (count_existing r g 0).
Qed.

Lemma seed_eq : seed = Ok seed_grid.
Proof. reflexivity. Qed.

Lemma ti_no_waste_None (r : Q) :
  ti_no_waste r None = ti_no_waste r (Some seed_grid).
Proof. reflexivity. Qed.

(** ** [ti] *)

Lemma ti_row_eq (r : Q) (a : nat) (bs : list nat) (sum : Z) :
  ti_row r a bs sum = Ok (sum + sumZ (hitn r a) bs).
Proof.
  revert sum. induction bs as [| b bs IH]; intros sum; simpl.
  { by rewrite Z.add_0_r. }
  rewrite visit_eq. cbn [mbind result_bind]. rewrite IH. f_equal. lia.
Qed.

Lemma ti_rows_eq (r : Q) (L : nat) (rows : list nat) (sum : Z) :
  ti_rows r L rows sum =
  Ok (sum + sumZ (fun a => sumZ (hitn r a) (range 0 L)) rows).
Proof.
  revert sum. induction rows as [| a rows IH]; intros sum; simpl.
  { by rewrite Z.add_0_r. }
  rewrite ti_row_eq. cbn [mbind result_bind]. rewrite IH. f_equal.
  unfold sumZ. lia.
Qed.

Lemma ti_eq (r : Q) :
  Qle_bool 0 r = true →
  ti r = Ok (sumZ (fun a => sumZ (hitn r a) (seq 0 (limit_of r)))
                  (seq 0 (limit_of r))).
Proof.
  intros Hr. unfold ti, int_np_sqrt. cbn [num_value np_fits negb].
  rewrite Hr. cbn [mbind result_bind]. fold (limit_of r). rewrite ti_rows_eq. unfold range.
  by rewrite Nat.sub_0_r.
Qed.

(** ** The limit bounds every counted point *)

Lemma limit_of_spec (r : Q) :
  Qle_bool 0 r = true →
  Qfloor r < Z.of_nat (limit_of r) * Z.of_nat (limit_of r).
Proof.
  intros Hr. apply Qfloor_nonneg in Hr.
  pose proof (Z.sqrt_spec _ Hr) as Hs. cbv zeta in Hs.
  pose proof (Z.sqrt_nonneg (Qfloor r)).
  pose proof (np_floor_sqrt_bounds r).
  unfold limit_of. rewrite Nat2Z.inj_add, Z2Nat.id by lia. nia.
Qed.

Lemma hitn_outside (r : Q) (a b : nat) :
  Qle_bool 0 r = true →
  (limit_of r ≤ a ∨ limit_of r ≤ b)%nat → hitn r a b = 0.
Proof.
  intros Hr Hab. pose proof (limit_of_spec r Hr) as HL.
  unfold hitn, hit. rewrite le_radius_floor.
  replace (_ <=? _) with false; [done |].
  symmetry. apply Z.leb_gt. nia.
Qed.

Lemma seq_split (k n : nat) :
  (k ≤ n)%nat → seq 0 n = seq 0 k ++ seq k (n - k).
Proof.
  intros H. replace n with (k + (n - k))%nat at 1 by lia.
  by rewrite seq_app.
Qed.

Lemma row_sum_outside (r : Q) (a k j : nat) :
  Qle_bool 0 r = true → (limit_of r ≤ a ∨ limit_of r ≤ k)%nat →
  sumZ (hitn r a) (seq k j) = 0.
Proof.
  intros Hr H. apply sumZ_zero. intros b Hb.
  apply list_elem_of_In, in_seq in Hb. apply hitn_outside; [done | lia].
Qed.

(** The count of an [n] by [n] grid plus what Step 2 adds is the count of
    the square below the limit. *)
Lemma square_count (r : Q) (n : nat) :
  Qle_bool 0 r = true →
  sumZ (fun a => sumZ (hitn r a) (seq 0 n)) (seq 0 n) + added r n n =
  sumZ (fun a => sumZ (hitn r a) (seq 0 (limit_of r))) (seq 0 (limit_of r)).
Proof.
  intros Hr. unfold added, range. set (L := limit_of r).
  destruct (decide (L ≤ n)%nat) as [HL | HL].
  - rewrite Nat.min_r by lia.
    replace (L - n)%nat with 0%nat by lia. simpl.
    rewrite (sumZ_zero _ (seq 0 L)) by done.
    set (F := fun a => sumZ (hitn r a) (seq 0 n)).
    rewrite (seq_split L n) by done. rewrite sumZ_app.
    rewrite (sumZ_zero _ (seq L _)).
    2:{ intros a Ha. apply list_elem_of_In, in_seq in Ha.
        apply row_sum_outside; [done | fold L; lia]. }
    rewrite !Z.add_0_r. apply sumZ_ext. intros a _. unfold F.
    rewrite (seq_split L n) by done. rewrite sumZ_app.
    rewrite (row_sum_outside r a L) by (done || (fold L; lia)). lia.
  - rewrite Nat.min_l by lia. rewrite Nat.sub_0_r.
    rewrite Z.add_assoc, <- sumZ_plus.
    set (F := fun a => sumZ (hitn r a) (seq 0 L)).
    rewrite (seq_split n L) by lia. rewrite sumZ_app. f_equal.
    apply sumZ_ext. intros a _. unfold F.
    rewrite (seq_split n L) by lia. by rewrite sumZ_app.
Qed.

(** ** Shape of the grid a call returns *)

Lemma extended_lookup (r : Q) (n m : nat) (g : grid) (a : nat) :
  length g = n →
  extended r n m g !! a =
  if decide (a < n)%nat then
    (fun row => if decide (a < n `min` limit_of r)%nat
                then row ++ (fresh r a <$> range m (limit_of r)) else row)
      <$> g !! a
  else if decide (a < limit_of r)%nat then
    Some (fresh r a <$> range 0 (limit_of r))
  else None.
Proof.
  intros Hn. unfold extended. set (L := limit_of r).
  destruct (decide (a < n)%nat) as [Ha | Ha].
  - rewrite lookup_app_l by (rewrite length_imap; lia).
    by rewrite list_lookup_imap.
  - rewrite lookup_app_r by (rewrite length_imap; lia).
    rewrite length_imap, Hn, list_lookup_fmap.
    destruct (decide (a < L)%nat) as [HL | HL].
    + rewrite lookup_seq_lt by lia. simpl. do 3 f_equal. lia.
    + by rewrite lookup_seq_ge by lia.
Qed.

Lemma extended_length (r : Q) (n m : nat) (g : grid) :
  length g = n → length (extended r n m g) = (n `max` limit_of r)%nat.
Proof.
  intros Hn. unfold extended.
  rewrite length_app, length_imap, length_fmap, length_seq. lia.
Qed.

Lemma fresh_row_lookup (r : Q) (a lo hi b : nat) (e : GaussInt.t) :
  (fresh r a <$> range lo hi) !! b = Some e →
  e = fresh r a (lo + b) ∧ (lo + b < hi)%nat.
Proof.
  unfold range. rewrite list_lookup_fmap. intros H.
  destruct (seq lo (hi - lo) !! b) as [k |] eqn:Hk; [| done].
  apply lookup_seq in Hk as [-> Hb]. simpl in H. split; [congruence | lia].
Qed.

Lemma touch_grid_rect (r : Q) (n m : nat) (g : grid) :
  rect n m g → rect n m (touch_grid r g).
Proof.
  intros (Hn & Hm & Hc). split; [by rewrite touch_grid_length |]. split.
  - intros a row. rewrite touch_grid_lookup.
    destruct (g !! a) as [row1 |] eqn:Hr; [| done]. intros [= <-].
    rewrite length_fmap. by eapply Hm.
  - intros a b row e. rewrite touch_grid_lookup.
    destruct (g !! a) as [row1 |] eqn:Hr; [| done]. intros [= <-].
    rewrite list_lookup_fmap.
    destruct (row1 !! b) as [e1 |] eqn:He; [| done]. intros [= <-].
    rewrite touch_coords. by eapply Hc.
Qed.

Lemma touch_grid_memo_ok (r : Q) (g : grid) :
  grid_memo_ok g → grid_memo_ok (touch_grid r g).
Proof.
  intros Hg a b row e. rewrite touch_grid_lookup.
  destruct (g !! a) as [row1 |] eqn:Hr; [| done]. intros [= <-].
  rewrite list_lookup_fmap.
  destruct (row1 !! b) as [e1 |] eqn:He; [| done]. intros [= <-].
  apply count_entry_memo_ok. by eapply Hg.
Qed.

(** What a row of the extended grid is made of. *)
Lemma extended_row_inv (r : Q) (n m : nat) (g : grid) (a : nat)
    (row : list GaussInt.t) :
  length g = n → extended r n m g !! a = Some row →
  (∃ old, g !! a = Some old ∧
          (row = old ∨
           (a < limit_of r)%nat ∧
           row = old ++ (fresh r a <$> range m (limit_of r)))) ∨
  ((n ≤ a < limit_of r)%nat ∧ g !! a = None ∧
   row = fresh r a <$> range 0 (limit_of r)).
Proof.
  intros Hn. rewrite extended_lookup by done.
  destruct (decide (a < n)%nat) as [Ha | Ha].
  - destruct (g !! a) as [old |] eqn:Hold; [| done]. simpl.
    intros [= <-]. left. exists old. split; [done |].
    destruct (decide (a < n `min` limit_of r)%nat); [right | left]; [| done].
    split; [lia | done].
  - destruct (decide (a < limit_of r)%nat); [| done].
    intros [= <-]. right. split; [lia |]. split; [| done].
    apply lookup_ge_None. lia.
Qed.

Lemma extended_coords_ok (r : Q) (n m : nat) (g : grid) :
  rect n m g → coords_ok (extended r n m g).
Proof.
  intros (Hn & Hm & Hc) a b row e Hrow He.
  apply extended_row_inv in Hrow as
    [(old & Hold & [-> | [_ ->]]) | (_ & _ & ->)]; [| | | done].
  - by eapply Hc.
  - apply lookup_app_Some in He as [He | [Hb He]]; [by eapply Hc |].
    apply fresh_row_lookup in He as [-> _]. rewrite fresh_coords.
    rewrite (Hm _ _ Hold) in Hb |- *. do 2 f_equal. lia.
  - apply fresh_row_lookup in He as [-> _]. by rewrite fresh_coords.
Qed.

Lemma extended_memo_ok (r : Q) (n m : nat) (g : grid) :
  length g = n → grid_memo_ok g → grid_memo_ok (extended r n m g).
Proof.
  intros Hn Hg a b row e Hrow He.
  apply extended_row_inv in Hrow as
    [(old & Hold & [-> | [_ ->]]) | (_ & _ & ->)]; [| | | done].
  - by eapply Hg.
  - apply lookup_app_Some in He as [He | [Hb He]]; [by eapply Hg |].
    apply fresh_row_lookup in He as [-> _]. apply fresh_memo_ok.
  - apply fresh_row_lookup in He as [-> _]. apply fresh_memo_ok.
Qed.

Lemma extended_square_rows (r : Q) (n : nat) (g : grid) :
  length g = n → rows_len n g →
  rows_len (n `max` limit_of r) (extended r n n g).
Proof.
  intros Hn Hm a row. rewrite extended_lookup by done.
  destruct (decide (a < n)%nat) as [Ha | Ha].
  - destruct (g !! a) as [old |] eqn:Hold; [| done]. simpl.
    intros [= <-]. pose proof (Hm _ _ Hold) as Hl.
    destruct (decide (a < n `min` limit_of r)%nat).
    + rewrite length_app, length_fmap. unfold range.
      rewrite length_seq. lia.
    + lia.
  - destruct (decide (a < limit_of r)%nat); [| done].
    intros [= <-]. rewrite length_fmap. unfold range.
    rewrite length_seq. lia.
Qed.

Lemma square_scan (r : Q) (n : nat) (g : grid) :
  square n g →
  fst (count_existing r g 0) =
  sumZ (fun a => sumZ (hitn r a) (seq 0 n)) (seq 0 n).
Proof.
  intros [(Hn & Hm & Hc) Hg].
  rewrite (count_existing_hits r g 0 n); [by rewrite Hn |]. intros i row Hi. split; [by eapply Hm |].
  intros b e He. split; [by eapply Hc | by eapply Hg].
Qed.

(** One call on a square grid: it returns the count of [ti] and a square
    grid, of the larger of the old size and the limit. *)
Lemma ti_no_waste_square (r : Q) (n : nat) (g : grid) :
  (1 ≤ n)%nat → square n g → Qle_bool 0 r = true →
  ∃ g', ti_no_waste r (Some g) = Ok (total r, g') ∧
        square (n `max` limit_of r) g' ∧
        g' = extended r n n (touch_grid r g).
Proof.
  intros Hn1 Hsq Hr. pose proof Hsq as [(Hn & Hm & Hc) Hg].
  destruct (lookup_lt_is_Some_2 g 0%nat) as [row0 Hrow0]; [lia |].
  pose proof (Hm _ _ Hrow0) as Hl0.
  exists (extended r n n (touch_grid r g)).
  rewrite (ti_no_waste_eq r g row0 Hrow0 Hr), Hn, Hl0.
  rewrite (square_scan r n g Hsq), square_count by done.
  split; [done |]. split; [| done].
  pose proof (touch_grid_rect r n n g (conj Hn (conj Hm Hc))) as Hrect.
  pose proof Hrect as (Hn' & Hm' & Hc'). split; [split; [| split] |].
  - by apply extended_length.
  - by apply extended_square_rows.
  - by apply extended_coords_ok.
  - apply extended_memo_ok; [done |]. by apply touch_grid_memo_ok.
Qed.

Lemma seed_square : square 2 seed_grid.
Proof.
  split; [split; [done | split] |].
  - intros [| [| a]] row; simpl; intros [= <-]; done.
  - intros [| [| a]] [| [| b]] row e; simpl; try done;
      intros [= <-]; simpl; try done; by intros [= <-].
  - intros [| [| a]] [| [| b]] row e; simpl; try done;
      intros [= <-]; simpl; try done; intros [= <-]; split; by left.
Qed.

(** ** Sequences of calls *)

Lemma grows_refl (g : grid) : grows g g.
Proof. intros a row H. by exists row. Qed.

Lemma square_grows (n n' : nat) (g g' : grid) :
  square n g → square n' g' → (n ≤ n')%nat → grows g g'.
Proof.
  intros [(Hn & Hm & _) _] [(Hn' & Hm' & _) _] Hle a row Ha.
  pose proof (lookup_lt_Some _ _ _ Ha) as Hlt.
  destruct (lookup_lt_is_Some_2 g' a) as [row' Hrow']; [lia |].
  exists row'. split; [done |].
  rewrite (Hm _ _ Ha), (Hm' _ _ Hrow'). done.
Qed.

Lemma nonneg_Qle_bool (r : Q) : nonneg r → Qle_bool 0 r = true.
Proof. apply Qle_bool_iff. Qed.

Lemma feed_square (rs : list Q) (n : nat) (g : grid) :
  (1 ≤ n)%nat → square n g → Forall nonneg rs →
  ∃ tr, feed rs (Some g) = Ok tr ∧ length tr = length rs ∧
    (∀ i r c gi, rs !! i = Some r → tr !! i = Some (c, gi) →
       c = total r ∧ ∃ ni, (n ≤ ni)%nat ∧ square ni gi) ∧
    (∀ i j ci gi cj gj, (i ≤ j)%nat →
       tr !! i = Some (ci, gi) → tr !! j = Some (cj, gj) → grows gi gj).
Proof.
  intros Hn Hsq Hrs. revert n g Hn Hsq.
  induction Hrs as [| r rs Hr Hrs IH]; intros n g Hn Hsq.
  { exists []. repeat split; intros; simplify_eq. }
  apply nonneg_Qle_bool in Hr.
  destruct (ti_no_waste_square r n g Hn Hsq Hr) as (g1 & Hcall & Hsq1 & _).
  destruct (IH (n `max` limit_of r)%nat g1 ltac:(lia) Hsq1)
    as (rest & Hfeed & Hlen & Hval & Hmono).
  exists ((total r, g1) :: rest). cbn [feed]. rewrite Hcall.
  cbn [mbind result_bind]. rewrite Hfeed. cbn [mbind result_bind].
  split; [done |]. split; [simpl; by rewrite Hlen |]. split.
  - intros [| i] r' c gi Hr' Hi; simpl in Hr', Hi.
    + simplify_eq. split; [done |]. eexists. split; [| done]. lia.
    + destruct (Hval i r' c gi Hr' Hi) as [-> (ni & Hni & Hsqi)].
      split; [done |]. exists ni. split; [lia | done].
  - intros [| i] [| j] ci gi cj gj Hij Hi Hj; simpl in Hi, Hj.
    + simplify_eq. apply grows_refl.
    + simplify_eq.
      destruct (lookup_lt_is_Some_2 rs j) as [rj Hrj].
      { rewrite <- Hlen. by eapply lookup_lt_Some. }
      destruct (Hval j rj cj gj Hrj Hj) as [_ (nj & Hnj & Hsqj)].
      by eapply square_grows.
    + lia.
    + eapply Hmono; [| done | done]. lia.
Qed.

(** The drivers start from no grid: the seed is built by the first call. *)
Lemma feed_None (rs : list Q) : feed rs None = feed rs (Some seed_grid).
Proof. by destruct rs. Qed.

(** ** Calls that stay within the grid *)

Lemma added_within (r : Q) (n m : nat) :
  (limit_of r ≤ n)%nat → (limit_of r ≤ m)%nat → added r n m = 0.
Proof.
  intros Hn Hm. unfold added, range.
  replace (limit_of r - m)%nat with 0%nat by lia.
  replace (limit_of r - n)%nat with 0%nat by lia. simpl.
  by rewrite sumZ_zero.
Qed.

Lemma extended_within (r : Q) (n m : nat) (g : grid) :
  (limit_of r ≤ n)%nat → (limit_of r ≤ m)%nat → extended r n m g = g.
Proof.
  intros Hn Hm. unfold extended, range.
  replace (limit_of r - m)%nat with 0%nat by lia.
  replace (limit_of r - n)%nat with 0%nat by lia. simpl.
  rewrite app_nil_r. apply list_eq. intros i. rewrite list_lookup_imap.
  destruct (g !! i); [| done]. simpl.
  destruct (decide _); by rewrite ?app_nil_r.
Qed.

Lemma touch_grid_coords (r : Q) (g : grid) :
  (fun row : list GaussInt.t => GaussInt.coords <$> row) <$> touch_grid r g =
  (fun row : list GaussInt.t => GaussInt.coords <$> row) <$> g.
Proof.
  unfold touch_grid. rewrite <- list_fmap_compose.
  apply list_fmap_ext. intros _ row _. simpl.
  rewrite <- list_fmap_compose. apply list_fmap_ext. intros _ e _.
  apply touch_coords.
Qed.

Lemma coords_ok_NoDup (g : grid) (a : nat) (row : list GaussInt.t) :
  coords_ok g → g !! a = Some row → NoDup (GaussInt.coords <$> row).
Proof.
  intros Hc Ha. apply NoDup_alt. intros i j c.
  rewrite !list_lookup_fmap.
  destruct (row !! i) as [ei |] eqn:Hi; [| done].
  destruct (row !! j) as [ej |] eqn:Hj; [| done]. simpl.
  rewrite (Hc _ _ _ _ Ha Hi), (Hc _ _ _ _ Ha Hj).
  intros [= <-] [= Hij]. lia.
Qed.

(** * The claims *)

(** C1. Radii [r0 <= r1 <= ... <= rN = r], non-negative as inputs of the
    count, fed one by one into [ti_no_waste], the first call with no grid
    and each later call with the grid the previous one returned: every call
    returns, and the count of the last call is the value of [ti r]. *)
Theorem C1_incremental_equals_fresh (r0 : Q) (rs : list Q) (r : Q) :
  nonneg r0 → Sorted Qle (r0 :: rs) → last (r0 :: rs) = Some r →
  ∃ tr c g,
    feed (r0 :: rs) None = Ok tr ∧ last tr = Some (c, g) ∧ ti r = Ok c.
Proof.
  intros H0 Hsorted Hlast.
  assert (Hall : Forall nonneg (r0 :: rs)).
  { apply Sorted_StronglySorted in Hsorted.
    2:{ intros x y z. apply Qle_trans. }
    apply StronglySorted_inv in Hsorted as [_ Hle].
    constructor; [done |]. eapply Forall_impl; [exact Hle |].
    intros x Hx. unfold nonneg in *. by eapply Qle_trans. }
  destruct (feed_square (r0 :: rs) 2 seed_grid ltac:(lia) seed_square Hall)
    as (tr & Hfeed & Hlen & Hval & _).
  rewrite last_lookup in Hlast.
  destruct (lookup_lt_is_Some_2 tr (pred (length (r0 :: rs))))
    as [[c g] Hcg]; [rewrite Hlen; simpl; lia |].
  exists tr, c, g. rewrite feed_None. split; [done |].
  split; [by rewrite last_lookup, Hlen |].
  destruct (Hval _ _ _ _ Hlast Hcg) as [-> _].
  apply ti_eq, nonneg_Qle_bool.
  eapply Forall_lookup_1 in Hall; [exact Hall | exact Hlast].
Qed.

Lemma C1_witness :
  ∃ tr c g,
    feed [0; 1; 5 # 2; 10]%Q None = Ok tr ∧ last tr = Some (c, g) ∧
    ti 10 = Ok c.
Proof.
  apply (C1_incremental_equals_fresh 0 [1; 5 # 2; 10]%Q 10).
  - unfold nonneg, Qle. simpl. lia.
  - repeat constructor; unfold Qle; simpl; lia.
  - reflexivity.
Defined.

(** The rule cascade of [isprime] on a fresh entity, the rational
    primality tests stated with [prime]. *)
Lemma prime_at_cascade (x y : Z) :
  prime_at x y =
  if decide (x = 0 ∧ y = 0) then false
  else if decide (x = 1 ∧ y = 0) then false
  else if decide (x = 1 ∧ y = 1) then true
  else if decide (y = 0 ∧ x mod 4 = 3 ∧ prime x) then true
  else bool_decide (prime (x * x + y * y)).
Proof.
  unfold prime_at, GaussInt.isprime, GaussInt.norm.
  cbn [GaussInt.var_isprime GaussInt.var_norm GaussInt.a GaussInt.b
       GaussInt.set_var_norm GaussInt.set_var_isprime fst].
  rewrite <- !sp_isprime_decide.
  replace (x * x + y * y) with (x ^ 2 + y ^ 2) by lia.
  destruct (Z.eqb_spec x 0), (Z.eqb_spec y 0), (Z.eqb_spec x 1),
    (Z.eqb_spec y 1), (Z.eqb_spec (x mod 4) 3),
    (sp_isprime x) eqn:Hp; cbn [andb fst];
    repeat (case_decide; try done);
    rewrite <- ?sp_isprime_prime in *; try (exfalso; intuition congruence);
    try (exfalso; intuition lia).
Qed.

(** C2. [isprime] on [GaussInt(a, b)], at the first call and at any later
    one, follows the precedence: (0,0) is not prime; (1,0) is not prime;
    (1,1) is prime; [b = 0], [a mod 4 = 3] and [a] a rational prime give
    prime; otherwise the entity is prime exactly when its norm [a^2 + b^2]
    is a rational prime. The known values follow. *)
Theorem C2_isprime_precedence :
  (∀ (x y : Z) (ms : list method),
     fst (GaussInt.isprime (after ms (GaussInt.mk x y None None))) =
     if decide (x = 0 ∧ y = 0) then false
     else if decide (x = 1 ∧ y = 0) then false
     else if decide (x = 1 ∧ y = 1) then true
     else if decide (y = 0 ∧ x mod 4 = 3 ∧ prime x) then true
     else bool_decide (prime (x * x + y * y))) ∧
  prime_at 0 0 = false ∧ prime_at 1 0 = false ∧ prime_at 1 1 = true ∧
  prime_at 3 0 = true ∧ prime_at 2 0 = false ∧ prime_at 1 2 = true ∧
  prime_at 2 2 = false.
Proof.
  split; [| by vm_compute].
  intros x y ms. rewrite <- prime_at_cascade.
  assert (H0 : memo_ok (GaussInt.mk x y None None)) by (split; by left).
  destruct (after_inv ms _ H0) as [Hm Hc].
  destruct (isprime_memo_ok _ Hm) as [-> _].
  unfold GaussInt.coords in Hc. simpl in Hc. by injection Hc as -> ->.
Qed.

(** C3, as stated: [ti_no_waste(2)] with no grid does not return 3. *)
Lemma C3_count_2_is_not_3 : ¬ ∃ g, ti_no_waste 2 None = Ok (3, g).
Proof. intros [g Hg]. vm_compute in Hg. discriminate Hg. Qed.

(** C3, amended. [ti_no_waste(2)] with no grid returns the count 1: of the
    four seed points only (1,1) is prime, and nothing is appended. *)
Theorem C3_count_2_is_1 :
  ∃ g, ti_no_waste 2 None = Ok (1, g) ∧
       coords_of g = [[(0, 0); (0, 1)]; [(1, 0); (1, 1)]] ∧
       prime_at 0 0 = false ∧ prime_at 0 1 = false ∧
       prime_at 1 0 = false ∧ prime_at 1 1 = true.
Proof. eexists. split; [by vm_compute | by vm_compute]. Qed.

(** C4. For every sequence of non-negative radii fed into [ti_no_waste]
    from no grid, every call returns; of two grids returned, the later has
    every row of the earlier, at least as long; and in every grid returned
    the entry at position [b] of row [a] has coordinates [(a, b)]. *)
Theorem C4_grid_shape_invariant (rs : list Q) :
  Forall nonneg rs →
  ∃ tr, feed rs None = Ok tr ∧ length tr = length rs ∧
    ∀ i j ci gi cj gj, (i ≤ j)%nat →
      tr !! i = Some (ci, gi) → tr !! j = Some (cj, gj) →
      grows gi gj ∧ coords_ok gj.
Proof.
  intros Hrs.
  destruct (feed_square rs 2 seed_grid ltac:(lia) seed_square Hrs)
    as (tr & Hfeed & Hlen & Hval & Hmono).
  exists tr. rewrite feed_None. split; [done |]. split; [done |].
  intros i j ci gi cj gj Hij Hi Hj. split; [by eapply Hmono |].
  destruct (lookup_lt_is_Some_2 rs j) as [rj Hrj].
  { rewrite <- Hlen. by eapply lookup_lt_Some. }
  destruct (Hval j rj cj gj Hrj Hj) as [_ (nj & _ & [(_ & _ & Hc) _])].
  exact Hc.
Qed.

Lemma C4_witness :
  ∃ tr, feed [0; 2; 10; 3]%Q None = Ok tr ∧ length tr = 4%nat ∧
    ∀ i j ci gi cj gj, (i ≤ j)%nat →
      tr !! i = Some (ci, gi) → tr !! j = Some (cj, gj) →
      grows gi gj ∧ coords_ok gj.
Proof.
  apply (C4_grid_shape_invariant [0; 2; 10; 3]%Q).
  repeat constructor; unfold nonneg, Qle; simpl; lia.
Defined.

(** C5, as stated: on a grid that satisfies the shape invariant with rows
    of different lengths, row 1 (of length 2) is extended from [b = 1], the
    length of row 0, so the cell (1,1) is built and appended a second time
    (and counted twice: the call returns 2 where [ti(4)] is 1). *)
Lemma C5_ragged_row_is_reappended :
  coords_ok ragged_grid ∧
  ragged_grid !! 1%nat =
    Some [GaussInt.mk 1 0 None None; GaussInt.mk 1 1 None None] ∧
  snd (open_row 2 1 1 ragged_grid) = 1%nat ∧
  len_row0 ragged_grid = Ok 1%nat ∧
  ∃ g, ti_no_waste 4 (Some ragged_grid) = Ok (2, g) ∧
       coords_of g !! 1%nat = Some [(1, 0); (1, 1); (1, 1); (1, 2)] ∧
       ¬ coords_ok g ∧
       ti 4 = Ok 1.
Proof.
  split.
  { intros [| [| a]] [| [| b]] row e; simpl; try done;
      intros [= <-]; simpl; try done; by intros [= <-]. }
  do 3 (split; [done |]).
  eexists. split; [by vm_compute |]. split; [by vm_compute |].
  split; [| by vm_compute].
  intros Hc. specialize (Hc 1%nat 2%nat _ _ eq_refl eq_refl).
  vm_compute in Hc. discriminate Hc.
Qed.

(** C5, amended. On a grid of [n >= 1] rows that all have the length [m]
    of row 0, every entry at its place, and for a radius [r >= 0]: [min_b]
    is 0 with a new empty row appended for a row index from the row count
    on, and [min_b] is [m], the row's own length, for a row present on
    entry; the call returns a grid in which every row present on entry is
    kept with new entries only appended, every row index from the row count
    up to the limit has the row built from [b = 0], every entry is at its
    place and no row holds a cell twice. *)
Theorem C5_rows_start_at_row0_length (r : Q) (n m : nat) (g : grid) :
  (1 ≤ n)%nat → rect n m g → nonneg r →
  len_row0 g = Ok m ∧
  (∀ a g1, (n ≤ a)%nat → open_row n m a g1 = (g1 ++ [[]], 0%nat)) ∧
  (∀ a g1 row, g !! a = Some row → open_row n m a g1 = (g1, length row)) ∧
  ∃ c g',
    ti_no_waste r (Some g) = Ok (c, g') ∧
    (∀ a row, g !! a = Some row →
       ∃ new, g' !! a = Some ((touch r <$> row) ++ new)) ∧
    (∀ a, (n ≤ a < limit_of r)%nat →
       g' !! a = Some (fresh r a <$> range 0 (limit_of r))) ∧
    coords_ok g' ∧
    (∀ a row', g' !! a = Some row' → NoDup (GaussInt.coords <$> row')).
Proof.
  intros Hn1 Hrect Hr. pose proof Hrect as (Hn & Hm & Hc).
  destruct (lookup_lt_is_Some_2 g 0%nat) as [row0 Hrow0]; [lia |].
  pose proof (Hm _ _ Hrow0) as Hl0.
  split; [unfold len_row0; by rewrite Hrow0, Hl0 |]. split.
  { intros a g1 Ha. unfold open_row. by rewrite decide_True by lia. }
  split.
  { intros a g1 row Ha. unfold open_row.
    pose proof (lookup_lt_Some _ _ _ Ha).
    rewrite decide_False by lia. by rewrite (Hm _ _ Ha). }
  rewrite (ti_no_waste_eq r g row0 Hrow0 (nonneg_Qle_bool r Hr)), Hn, Hl0.
  eexists _, _. split; [done |].
  pose proof (touch_grid_rect r n m g Hrect) as Hrect'.
  pose proof Hrect' as (Hn' & _ & _).
  assert (Hok : coords_ok (extended r n m (touch_grid r g)))
    by by apply extended_coords_ok.
  split; [| split; [| split]].
  - intros a row Ha. pose proof (lookup_lt_Some _ _ _ Ha).
    rewrite extended_lookup by done. rewrite decide_True by lia.
    rewrite touch_grid_lookup, Ha. simpl.
    destruct (decide _); eexists; [done |]. by rewrite app_nil_r.
  - intros a Ha. rewrite extended_lookup by done.
    rewrite decide_False by lia. by rewrite decide_True by lia.
  - exact Hok.
  - intros a row' Ha. by eapply coords_ok_NoDup.
Qed.

Lemma C5_witness :
  len_row0 row_grid = Ok 3%nat ∧
  (∀ a g1, (1 ≤ a)%nat → open_row 1 3 a g1 = (g1 ++ [[]], 0%nat)) ∧
  (∀ a g1 row, row_grid !! a = Some row →
     open_row 1 3 a g1 = (g1, length row)) ∧
  ∃ c g',
    ti_no_waste 17 (Some row_grid) = Ok (c, g') ∧
    (∀ a row, row_grid !! a = Some row →
       ∃ new, g' !! a = Some ((touch 17 <$> row) ++ new)) ∧
    (∀ a, (1 ≤ a < limit_of 17)%nat →
       g' !! a = Some (fresh 17 a <$> range 0 (limit_of 17))) ∧
    coords_ok g' ∧
    (∀ a row', g' !! a = Some row' → NoDup (GaussInt.coords <$> row')).
Proof.
  apply (C5_rows_start_at_row0_length 17 1 3 row_grid).
  - lia.
  - split; [done |]. split.
    + intros [| a] row; simpl; [by intros [= <-] | done].
    + intros [| a] [| [| [| b]]] row e; simpl; try done;
        intros [= <-]; simpl; try done; by intros [= <-].
  - unfold nonneg, Qle. simpl. lia.
Defined.

(** C6. For every radius [r < 0] and any grid the call returns no count,
    so never a nonzero one: it rejects the radius. With the default seed or
    a non-empty grid, Step 1 runs and the limit computation
    [int(np.sqrt(r))] raises: [ValueError] for a float and for an int that
    [np.sqrt] takes to a double ([nan] cannot be converted), [TypeError]
    for an int outside 64 bits. An empty list passed as grid raises
    [IndexError] at [len(ints[0])], before the radius is looked at. *)
Theorem C6_negative_radius_raises (r : pynum) (ints : option grid) :
  (num_value r < 0)%Q →
  ti_no_waste r ints =
    Raise (match ints with
           | Some [] => IndexError
           | _ => if np_fits r then ValueError else TypeError
           end) ∧
  ∀ c g, ti_no_waste r ints ≠ Ok (c, g).
Proof.
  intros Hr.
  assert (Hraise : ti_no_waste r ints =
            Raise (match ints with
                   | Some [] => IndexError
                   | _ => if np_fits r then ValueError else TypeError
                   end)).
  { pose proof (int_np_sqrt_negative r Hr) as Hs.
    destruct ints as [[| row0 g] |].
    - reflexivity.
    - by apply (ti_no_waste_rejected r (row0 :: g) row0).
    - by apply (ti_no_waste_rejected r seed_grid _ _ eq_refl). }
  split; [exact Hraise |]. intros c g. by rewrite Hraise.
Qed.

Lemma C6_witness :
  (ti_no_waste (-1 # 2) None = Raise ValueError ∧
   ∀ c g, ti_no_waste (-1 # 2) None ≠ Ok (c, g)) ∧
  (ti_no_waste (PyNumInt (- 2 ^ 63 - 1)) (Some seed_grid) = Raise TypeError ∧
   ∀ c g, ti_no_waste (PyNumInt (- 2 ^ 63 - 1)) (Some seed_grid)
          ≠ Ok (c, g)).
Proof.
  split.
  - apply (C6_negative_radius_raises (-1 # 2) None).
    unfold Qlt. simpl. lia.
  - apply (C6_negative_radius_raises (PyNumInt (- 2 ^ 63 - 1))
             (Some seed_grid)).
    unfold Qlt. simpl. lia.
Defined.

(** C7. The constructor raises its exception exactly when one of the two
    arguments is not an instance of [int]; on two integers it returns the
    entity holding them unchanged, with empty memo fields. *)
Theorem C7_init_rejects_non_integers :
  (∀ x y : pyval,
     GaussInt.init x y = Raise (Exception "GaussInt must be given two integers")
     ↔ isinstance_int x = false ∨ isinstance_int y = false) ∧
  (∀ x y : pyval,
     (∃ e, GaussInt.init x y = Ok e)
     ↔ isinstance_int x = true ∧ isinstance_int y = true) ∧
  (∀ a b : Z,
     GaussInt.init (PyInt a) (PyInt b) = Ok (GaussInt.mk a b None None)) ∧
  (∀ (q : Q) (s : string) (z : Z),
     GaussInt.init (PyFloat q) (PyInt z)
       = Raise (Exception "GaussInt must be given two integers") ∧
     GaussInt.init (PyInt z) (PyStr s)
       = Raise (Exception "GaussInt must be given two integers") ∧
     GaussInt.init PyNone (PyInt z)
       = Raise (Exception "GaussInt must be given two integers")).
Proof.
  split; [| split; [| split]]; try done.
  - intros x y. unfold GaussInt.init.
    destruct (isinstance_int x), (isinstance_int y); simpl;
      intuition congruence.
  - intros x y. unfold GaussInt.init.
    destruct (isinstance_int x), (isinstance_int y); simpl;
      (split; [intros [e He]; by inversion He | intros [? ?]; by eauto]).
Qed.

(** C8. For all integers [a] and [b], [norm] called on [GaussInt(a, b)]
    returns [a*a + b*b]: on the first call, and on every later call on the
    same entity, whatever calls of [norm] and [isprime] came in between. *)
Theorem C8_norm_value_and_memo :
  ∀ (a b : Z) (ms : list method),
    GaussInt.init (PyInt a) (PyInt b) = Ok (GaussInt.mk a b None None) ∧
    fst (GaussInt.norm (GaussInt.mk a b None None)) = a * a + b * b ∧
    fst (GaussInt.norm (after ms (GaussInt.mk a b None None)))
      = a * a + b * b ∧
    fst (GaussInt.norm (snd (GaussInt.norm (after ms (GaussInt.mk a b None None)))))
      = fst (GaussInt.norm (after ms (GaussInt.mk a b None None))).
Proof.
  intros a b ms. split; [done |]. split; [simpl; lia |].
  assert (H0 : memo_ok (GaussInt.mk a b None None)) by (split; by left).
  destruct (after_inv ms _ H0) as [Hm Hc].
  set (e := after ms _) in *.
  destruct (norm_memo_ok e Hm) as [Hn Hm1].
  destruct (norm_memo_ok _ Hm1) as [Hn1 _].
  pose proof (norm_coords e) as Hc1.
  unfold GaussInt.coords in Hc, Hc1. simpl in Hc.
  injection Hc as Ha Hb. injection Hc1 as Ha1 Hb1.
  rewrite Hn1, Ha1, Hb1, Hn, Ha, Hb. split; [lia | done].
Qed.

(** C9. [isprime] has no rule for the imaginary axis: on (0,3) none of the
    first four rules applies ([b] is not 0), the result is
    [sp.isprime(norm)] with norm 9, which is false as 9 is composite; the
    same last rule decides every point [(0, b)], while on the real axis
    (3,0) is prime. *)
Theorem C9_imaginary_axis_falls_through :
  prime_at 0 3 = false ∧
  ((0 =? 0) && (3 =? 0) = false ∧ (0 =? 1) && (3 =? 0) = false ∧
   (0 =? 1) && (3 =? 1) = false ∧
   (3 =? 0) && (0 mod 4 =? 3) && sp_isprime 0 = false) ∧
  fst (GaussInt.norm (GaussInt.mk 0 3 None None)) = 9 ∧
  prime_at 0 3 = sp_isprime 9 ∧
  ¬ prime 9 ∧
  (∀ y : Z, prime_at 0 y = sp_isprime (0 ^ 2 + y ^ 2)) ∧
  prime_at 3 0 = true.
Proof.
  split; [by vm_compute |]. split; [by vm_compute |].
  split; [by vm_compute |]. split; [by vm_compute |].
  split; [rewrite <- sp_isprime_prime; by vm_compute |].
  split; [| by vm_compute].
  intros y. unfold prime_at, GaussInt.isprime, GaussInt.norm.
  cbn [GaussInt.var_isprime GaussInt.var_norm GaussInt.a GaussInt.b
       GaussInt.set_var_norm GaussInt.set_var_isprime fst].
  change (0 =? 0) with true. change (0 =? 1) with false.
  change (0 mod 4 =? 3) with false. cbn [andb].
  destruct (Z.eqb_spec y 0) as [-> | Hy]; [by vm_compute |].
  rewrite andb_false_r. done.
Qed.

(** C10, as stated: the grid a call with radius 24 returns is square of
    size 5, and the float just below 25 has [floor(sqrt(r)) + 1 = 5]; yet
    its double square root rounds to 5, the limit is 6, and the call on
    that grid returns a grid of 6 rows of length 6. *)
Lemma C10_float_below_square_appends :
  ∃ c0 g0,
    ti_no_waste 24 None = Ok (c0, g0) ∧ rect 5 5 g0 ∧
    nonneg below_25 ∧ Z.sqrt (Qfloor below_25) + 1 <= Z.of_nat 5 ∧
    int_np_sqrt below_25 = Ok 5%nat ∧
    ∃ c g',
      ti_no_waste below_25 (Some g0) = Ok (c, g') ∧
      length g' = 6%nat ∧
      ∀ a row, g' !! a = Some row → length row = 6%nat.
Proof.
  assert (H24 : nonneg 24) by (unfold nonneg, Qle; simpl; lia).
  assert (Hb : nonneg below_25) by (unfold nonneg, Qle; simpl; lia).
  assert (HL24 : (2 `max` limit_of 24 = 5)%nat) by by vm_compute.
  assert (HLb : (5 `max` limit_of below_25 = 6)%nat) by by vm_compute.
  destruct (ti_no_waste_square 24 2 seed_grid ltac:(lia) seed_square
              (nonneg_Qle_bool _ H24)) as (g0 & Hcall0 & Hsq0 & _).
  rewrite HL24 in Hsq0.
  destruct (ti_no_waste_square below_25 5 g0 ltac:(lia) Hsq0
              (nonneg_Qle_bool _ Hb)) as (g' & Hcall & Hsq & _).
  rewrite HLb in Hsq. destruct Hsq as [(Hlen & Hrows & _) _].
  exists (total 24), g0. rewrite ti_no_waste_None.
  split; [exact Hcall0 |]. split; [apply Hsq0 |]. split; [exact Hb |].
  split; [by vm_compute |]. split; [by vm_compute |].
  exists (total below_25), g'. done.
Qed.

(** C10, amended. On a square grid of size [n], every entry at its place,
    and for a radius [r >= 0] whose limit as the code computes it,
    [int(np.sqrt(r)) + 1], is at most [n], the call returns what the scan
    of Step 1 returns: the count of the scan, and the scanned grid with no
    row and no entry appended, the same coordinates at the same places.
    (The computed limit is [floor(sqrt(r)) + 1], or one more for a float
    just below a perfect square.) *)
Theorem C10_no_growth_within_grid (r : Q) (n : nat) (g : grid) :
  rect n n g → nonneg r → (limit_of r ≤ n)%nat →
  ∃ c g',
    ti_no_waste r (Some g) = Ok (c, g') ∧
    (c, g') = count_existing r g 0 ∧
    g' = touch_grid r g ∧
    length g' = length g ∧
    coords_of g' = coords_of g ∧
    rect n n g'.
Proof.
  intros Hrect Hr HLn. pose proof Hrect as (Hn & Hm & Hc).
  assert (Hn1 : (1 ≤ n)%nat) by (unfold limit_of in HLn; lia).
  destruct (lookup_lt_is_Some_2 g 0%nat) as [row0 Hrow0]; [lia |].
  pose proof (Hm _ _ Hrow0) as Hl0.
  rewrite (ti_no_waste_eq r g row0 Hrow0 (nonneg_Qle_bool r Hr)), Hn, Hl0.
  rewrite added_within, extended_within by done.
  exists (fst (count_existing r g 0)), (touch_grid r g).
  split; [by rewrite Z.add_0_r |].
  split; [by rewrite (count_existing_sum r g 0) |].
  split; [done |]. split; [by rewrite touch_grid_length |].
  split; [apply touch_grid_coords | by apply touch_grid_rect].
Qed.

Lemma C10_witness :
  ∃ c g',
    ti_no_waste 3 (Some seed_grid) = Ok (c, g') ∧
    (c, g') = count_existing 3 seed_grid 0 ∧
    g' = touch_grid 3 seed_grid ∧
    length g' = length seed_grid ∧
    coords_of g' = coords_of seed_grid ∧
    rect 2 2 g'.
Proof.
  apply (C10_no_growth_within_grid 3 2 seed_grid).
  - apply seed_square.
  - unfold nonneg, Qle. simpl. lia.
  - vm_compute. lia.
Defined.

(** * Further properties of the code *)

(** ** The memo fields after a call *)

Lemma norm_filled (e : GaussInt.t) (n : Z) :
  GaussInt.var_norm e = Some n → GaussInt.norm e = (n, e).
Proof. unfold GaussInt.norm. by intros ->. Qed.

Lemma isprime_filled (e : GaussInt.t) (p : bool) :
  GaussInt.var_isprime e = Some p → GaussInt.isprime e = (p, e).
Proof. unfold GaussInt.isprime. by intros ->. Qed.

Lemma norm_fills (e : GaussInt.t) :
  GaussInt.var_norm (snd (GaussInt.norm e)) = Some (fst (GaussInt.norm e)) ∧
  GaussInt.var_isprime (snd (GaussInt.norm e)) = GaussInt.var_isprime e.
Proof.
  unfold GaussInt.norm. by destruct (GaussInt.var_norm e) eqn:H.
Qed.

Lemma isprime_fills (e : GaussInt.t) :
  GaussInt.var_isprime (snd (GaussInt.isprime e))
    = Some (fst (GaussInt.isprime e)) ∧
  (∀ n, GaussInt.var_norm e = Some n →
        GaussInt.var_norm (snd (GaussInt.isprime e)) = Some n).
Proof.
  unfold GaussInt.isprime.
  destruct (GaussInt.var_isprime e) eqn:Hp; [done |].
  repeat (match goal with
          | |- context [if ?c then _ else _] => destruct c
          end; [done |]).
  split.
  - by destruct (GaussInt.norm e).
  - intros n Hn. by rewrite (norm_filled e n Hn).
Qed.

(** X11. A second call of [norm] or of [isprime] on an entity returns what
    the first call returned and leaves the entity as the first call left
    it, whatever its memo fields held before. *)
Theorem X11_methods_idempotent (e : GaussInt.t) :
  GaussInt.norm (snd (GaussInt.norm e))
    = (fst (GaussInt.norm e), snd (GaussInt.norm e)) ∧
  GaussInt.isprime (snd (GaussInt.isprime e))
    = (fst (GaussInt.isprime e), snd (GaussInt.isprime e)).
Proof.
  split.
  - apply norm_filled, norm_fills.
  - apply isprime_filled, isprime_fills.
Qed.

Lemma touch_touch (r : Q) (e : GaussInt.t) : touch r (touch r e) = touch r e.
Proof.
  unfold touch at 2 3. unfold count_entry.
  destruct (norm_fills e) as [Hn _].
  destruct (GaussInt.norm e) as [n e1]. simpl in Hn.
  destruct (le_radius n r) eqn:Hle.
  - destruct (isprime_fills e1) as [Hp Hk]. specialize (Hk n Hn).
    destruct (GaussInt.isprime e1) as [p e2]. simpl in Hp, Hk |- *.
    unfold touch, count_entry.
    by rewrite (norm_filled e2 n Hk), Hle, (isprime_filled e2 p Hp).
  - simpl. unfold touch, count_entry.
    by rewrite (norm_filled e1 n Hn), Hle.
Qed.

(** ** The oracle on and off the axes *)

Lemma square_not_prime (x : Z) : ¬ prime (x * x).
Proof.
  intros Hp. apply prime_alt in Hp as [H1 Hdiv].
  apply (Hdiv (Z.abs x)); [nia |].
  exists (Z.abs x). lia.
Qed.

Lemma prime_ge_2' (p : Z) : prime p → 2 <= p.
Proof. intros Hp. apply prime_alt in Hp as [? _]. lia. Qed.

Lemma prime_at_real (x : Z) :
  prime_at x 0 = true ↔ x mod 4 = 3 ∧ prime x.
Proof.
  rewrite prime_at_cascade.
  destruct (decide (x = 0 ∧ 0 = 0)) as [[-> _] | H1].
  { split; [done | intros [_ Hp%prime_ge_2']; lia]. }
  destruct (decide (x = 1 ∧ 0 = 0)) as [[-> _] | H2].
  { split; [done | intros [_ Hp%prime_ge_2']; lia]. }
  destruct (decide (x = 1 ∧ 0 = 1)) as [[_ ?] | H3]; [lia |].
  destruct (decide (0 = 0 ∧ x mod 4 = 3 ∧ prime x)) as [(_ & ? & ?) | H4].
  { done. }
  replace (x * x + 0 * 0) with (x * x) by lia.
  rewrite bool_decide_eq_true. split.
  - intros Hp. by apply square_not_prime in Hp.
  - intros [? ?]. destruct H4. done.
Qed.

Lemma prime_at_imag (y : Z) : prime_at 0 y = false.
Proof.
  rewrite prime_at_cascade. repeat case_decide; try done; try lia.
  replace (0 * 0 + y * y) with (y * y) by lia.
  apply bool_decide_eq_false, square_not_prime.
Qed.

Lemma prime_at_off_axes (x y : Z) :
  x ≠ 0 → y ≠ 0 → prime_at x y = bool_decide (prime (x * x + y * y)).
Proof.
  intros Hx Hy. rewrite prime_at_cascade.
  repeat case_decide; try lia; try done.
  destruct_and!. subst. symmetry. apply bool_decide_eq_true.
  by apply sp_isprime_prime.
Qed.

(** X9. On the real axis [isprime] holds exactly for the rational primes
    that are 3 modulo 4 (so for no [a <= 0]); on the imaginary axis it
    holds nowhere. *)
Theorem X9_isprime_on_axes (x y : Z) :
  (prime_at x 0 = true ↔ x mod 4 = 3 ∧ prime x) ∧
  (x <= 0 → prime_at x 0 = false) ∧
  prime_at 0 y = false.
Proof.
  split; [apply prime_at_real |]. split; [| apply prime_at_imag].
  intros Hx. apply not_true_is_false. rewrite prime_at_real.
  intros [_ Hp%prime_ge_2']. lia.
Qed.

(** X10. Off the axes [isprime] is primality of the norm, so there it is
    the same for [(a, b)], [(b, a)] and every sign change; conjugation
    [(a, -b)] never changes it; and a point of norm at most 1 (zero and the
    units) is never prime. *)
Theorem X10_isprime_symmetries (x y : Z) :
  (x ≠ 0 → y ≠ 0 → prime_at x y = bool_decide (prime (x * x + y * y))) ∧
  (x ≠ 0 → y ≠ 0 → prime_at y x = prime_at x y) ∧
  prime_at x (- y) = prime_at x y ∧
  (x * x + y * y <= 1 → prime_at x y = false).
Proof.
  split; [apply prime_at_off_axes |]. split; [| split].
  - intros Hx Hy. rewrite !prime_at_off_axes by done.
    by replace (y * y + x * x) with (x * x + y * y) by lia.
  - destruct (decide (y = 0)) as [-> | Hy]; [done |].
    destruct (decide (x = 0)) as [-> | Hx].
    + by rewrite !prime_at_imag.
    + rewrite !prime_at_off_axes by lia.
      by replace (- y * - y) with (y * y) by lia.
  - intros H1. rewrite prime_at_cascade.
    repeat case_decide; try done; destruct_and?; subst; try lia.
    + match goal with H : prime _ |- _ => apply prime_ge_2' in H end.
      nia.
    + apply bool_decide_eq_false. intros Hp%prime_ge_2'. lia.
Qed.

(** ** Addition *)

(** X12. [__add__] never raises on two entities: it returns the entity of
    the componentwise sum with empty memo fields, so its [norm] is computed
    from the summed coordinates whatever the operands have cached; it is
    commutative and associative. *)
Theorem X12_add_componentwise (e1 e2 e3 : GaussInt.t) :
  GaussInt.add e1 e2 =
    Ok (GaussInt.mk (GaussInt.a e1 + GaussInt.a e2)
                    (GaussInt.b e1 + GaussInt.b e2) None None) ∧
  (∀ s, GaussInt.add e1 e2 = Ok s →
        fst (GaussInt.norm s) =
        (GaussInt.a e1 + GaussInt.a e2) * (GaussInt.a e1 + GaussInt.a e2) +
        (GaussInt.b e1 + GaussInt.b e2) * (GaussInt.b e1 + GaussInt.b e2)) ∧
  GaussInt.add e1 e2 = GaussInt.add e2 e1 ∧
  (s ← GaussInt.add e1 e2; GaussInt.add s e3) =
  (s ← GaussInt.add e2 e3; GaussInt.add e1 s).
Proof.
  split; [done |]. split; [| split].
  - intros s [= <-]. unfold GaussInt.norm. simpl. lia.
  - unfold GaussInt.add, GaussInt.init. simpl. do 2 f_equal; lia.
  - unfold GaussInt.add, GaussInt.init. simpl. do 2 f_equal; lia.
Qed.

(** ** The count as a number of lattice points *)

Lemma sumZ_le (f g : nat → Z) (l : list nat) :
  (∀ x, x ∈ l → f x <= g x) → sumZ f l <= sumZ g l.
Proof.
  induction l as [| x l IH]; intros H; simpl; [done |].
  assert (f x <= g x) by (apply H; set_solver).
  assert (sumZ f l <= sumZ g l) by (apply IH; intros; apply H; set_solver).
  unfold sumZ in *. lia.
Qed.

Lemma sumZ_filter (f : nat → bool) (l : list nat) :
  sumZ (fun x => Z.b2z (f x)) l = Z.of_nat (length (List.filter f l)).
Proof.
  induction l as [| x l IH]; [done |].
  cbn [sumZ foldr List.filter]. fold (sumZ (fun x => Z.b2z (f x)) l).
  rewrite IH. destruct (f x); simpl; lia.
Qed.

Lemma box_shrink (r : Q) (L B : nat) :
  (∀ a b, (L ≤ a ∨ L ≤ b)%nat → hitn r a b = 0) → (L ≤ B)%nat →
  sumZ (fun a => sumZ (hitn r a) (seq 0 B)) (seq 0 B) =
  sumZ (fun a => sumZ (hitn r a) (seq 0 L)) (seq 0 L).
Proof.
  intros Hout HB.
  assert (Hrow : ∀ a k j, (L ≤ a ∨ L ≤ k)%nat →
            sumZ (hitn r a) (seq k j) = 0).
  { intros a k j H. apply sumZ_zero. intros b Hb.
    apply list_elem_of_In, in_seq in Hb. apply Hout. lia. }
  set (F := fun a => sumZ (hitn r a) (seq 0 B)).
  rewrite (seq_split L B) by done. rewrite sumZ_app.
  rewrite (sumZ_zero _ (seq L _)).
  2:{ intros a Ha. apply list_elem_of_In, in_seq in Ha.
      apply Hrow. lia. }
  rewrite Z.add_0_r. apply sumZ_ext. intros a _. unfold F.
  rewrite (seq_split L B) by done. rewrite sumZ_app.
  rewrite (Hrow a L) by lia. lia.
Qed.

Lemma total_box (r : Q) (B : nat) :
  Qle_bool 0 r = true → (limit_of r ≤ B)%nat →
  sumZ (fun a => sumZ (hitn r a) (seq 0 B)) (seq 0 B) = total r.
Proof.
  intros Hr HB. unfold total. apply box_shrink; [| done].
  intros a b Hab. by apply hitn_outside.
Qed.

Lemma exact_limit_le (r : Q) : (exact_limit r ≤ limit_of r)%nat.
Proof.
  unfold exact_limit, limit_of. pose proof (np_floor_sqrt_bounds r). lia.
Qed.

Lemma hitn_outside_exact (r : Q) (a b : nat) :
  Qle_bool 0 r = true →
  (exact_limit r ≤ a ∨ exact_limit r ≤ b)%nat → hitn r a b = 0.
Proof.
  intros Hr Hab. apply Qfloor_nonneg in Hr.
  pose proof (Z.sqrt_spec _ Hr) as Hs. cbv zeta in Hs.
  pose proof (Z.sqrt_nonneg (Qfloor r)).
  unfold exact_limit in Hab.
  unfold hitn, hit. rewrite le_radius_floor.
  replace (_ <=? _) with false; [done |].
  symmetry. apply Z.leb_gt. nia.
Qed.

(** The count of [ti] is the count of the square below the exact limit. *)
Lemma total_exact (r : Q) (B : nat) :
  Qle_bool 0 r = true → (exact_limit r ≤ B)%nat →
  sumZ (fun a => sumZ (hitn r a) (seq 0 B)) (seq 0 B) = total r.
Proof.
  intros Hr HB.
  rewrite <- (total_box r (limit_of r `max` B)) by (done || lia).
  rewrite (box_shrink r (exact_limit r) B);
    [| intros; by apply hitn_outside_exact | done].
  rewrite (box_shrink r (exact_limit r) (limit_of r `max` B));
    [done | intros; by apply hitn_outside_exact |].
  pose proof (exact_limit_le r). lia.
Qed.

Lemma hitn_floor (r : Q) (a b : nat) :
  hitn r a b = hitn (inject_Z (Qfloor r)) a b.
Proof. unfold hitn, hit. by rewrite !le_radius_floor, Qfloor_Z. Qed.

Lemma total_floor (r : Q) :
  Qle_bool 0 r = true → total r = total (inject_Z (Qfloor r)).
Proof.
  intros Hr.
  assert (Hf : Qle_bool 0 (inject_Z (Qfloor r)) = true).
  { apply Qle_bool_iff. rewrite <- (Zle_Qle 0). by apply Qfloor_nonneg. }
  rewrite <- (total_exact r (exact_limit r)) by done.
  rewrite <- (total_exact (inject_Z (Qfloor r)) (exact_limit r)).
  - apply sumZ_ext. intros a _. apply sumZ_ext. intros b _.
    apply hitn_floor.
  - done.
  - unfold exact_limit. by rewrite Qfloor_Z.
Qed.

Lemma lattice_rows_count (r : Q) (B : nat) (rows : list nat) :
  sumZ (fun a => sumZ (hitn r a) (seq 0 B)) rows =
  Z.of_nat (length (List.filter (counted r)
                      (a ← rows; (fun b => (a, b)) <$> seq 0 B))).
Proof.
  induction rows as [| a rows IH]; [done |].
  cbn [sumZ foldr]. fold (sumZ (fun a => sumZ (hitn r a) (seq 0 B)) rows).
  rewrite IH. cbn [mbind list_bind]. rewrite List.filter_app, length_app.
  rewrite Nat2Z.inj_add. f_equal.
  unfold hitn. rewrite (sumZ_filter (fun b => hit r (Z.of_nat a) (Z.of_nat b))).
  f_equal. generalize (seq 0 B) as bs.
  induction bs as [| b bs IHb]; [done |].
  cbn [List.filter fmap list_fmap]. unfold counted in *. cbn [fst snd].
  destruct (hit r (Z.of_nat a) (Z.of_nat b)); cbn [length]; by rewrite IHb.
Qed.

Lemma lattice_count (r : Q) (B : nat) :
  sumZ (fun a => sumZ (hitn r a) (seq 0 B)) (seq 0 B) =
  Z.of_nat (length (List.filter (counted r) (lattice B))).
Proof. apply lattice_rows_count. Qed.

(** X6. For [r >= 0], [ti(r)] is the number of points [(a, b)], [a, b >= 0],
    with [a^2 + b^2 <= r] that [isprime] accepts: counting over any square
    [[0, B)^2] that reaches [floor(sqrt(r)) + 1] gives the value of [ti], so
    the limit of the loops cuts off no point. *)
Theorem X6_ti_counts_lattice_points (r : Q) (B : nat) :
  nonneg r → (exact_limit r ≤ B)%nat →
  ti r = Ok (Z.of_nat (length (List.filter (counted r) (lattice B)))).
Proof.
  intros Hr HB. apply nonneg_Qle_bool in Hr.
  rewrite ti_eq by done. rewrite <- lattice_count.
  rewrite (total_exact r B) by done. reflexivity.
Qed.

Lemma X6_witness :
  ti 10 = Ok (Z.of_nat (length (List.filter (counted 10) (lattice 7)))).
Proof.
  apply (X6_ti_counts_lattice_points 10 7).
  - unfold nonneg, Qle. simpl. lia.
  - vm_compute. lia.
Defined.

(** ** Monotonicity *)

Lemma limit_of_mono (r1 r2 : Q) :
  (r1 <= r2)%Q → (limit_of r1 ≤ limit_of r2)%nat.
Proof.
  intros H. apply np_floor_sqrt_mono in H. unfold limit_of. lia.
Qed.

Lemma hitn_mono (r1 r2 : Q) (a b : nat) :
  (r1 <= r2)%Q → hitn r1 a b <= hitn r2 a b.
Proof.
  intros H. apply Qfloor_resp_le in H. unfold hitn, hit.
  rewrite !le_radius_floor.
  destruct (Z.leb_spec (Z.of_nat a ^ 2 + Z.of_nat b ^ 2) (Qfloor r1));
    destruct (Z.leb_spec (Z.of_nat a ^ 2 + Z.of_nat b ^ 2) (Qfloor r2));
    destruct (prime_at _ _); simpl; lia.
Qed.

Lemma total_mono (r1 r2 : Q) :
  nonneg r1 → (r1 <= r2)%Q → total r1 <= total r2.
Proof.
  intros H1 H12.
  assert (H2 : nonneg r2) by (unfold nonneg in *; by eapply Qle_trans).
  rewrite <- (total_box r1 (limit_of r2))
    by (by apply nonneg_Qle_bool || by apply limit_of_mono).
  unfold total. apply sumZ_le. intros a _. apply sumZ_le. intros b _.
  by apply hitn_mono.
Qed.

(** X2. [ti] is monotone: for [0 <= r1 <= r2] both calls return, and the
    count for [r1] is at most the count for [r2]. *)
Theorem X2_ti_monotone (r1 r2 : Q) :
  nonneg r1 → (r1 <= r2)%Q →
  ∃ c1 c2, ti r1 = Ok c1 ∧ ti r2 = Ok c2 ∧ c1 <= c2.
Proof.
  intros H1 H12.
  assert (H2 : nonneg r2) by (unfold nonneg in *; by eapply Qle_trans).
  exists (total r1), (total r2).
  rewrite !ti_eq by by apply nonneg_Qle_bool.
  split; [done |]. split; [done |]. by apply total_mono.
Qed.

Lemma X2_witness :
  ∃ c1 c2, ti (5 # 2) = Ok c1 ∧ ti 17 = Ok c2 ∧ c1 <= c2.
Proof.
  apply (X2_ti_monotone (5 # 2) 17).
  - unfold nonneg, Qle. simpl. lia.
  - unfold Qle. simpl. lia.
Defined.




(** ** The grid after a call *)

Lemma touch_le_eq (r r' : Q) (e : GaussInt.t) :
  le_radius (fst (GaussInt.norm e)) r = le_radius (fst (GaussInt.norm e)) r' →
  touch r e = touch r' e.
Proof.
  unfold touch, count_entry. destruct (GaussInt.norm e) as [n e1]. simpl.
  by intros ->.
Qed.

Lemma le_radius_max (n : Z) (r1 r2 : Q) :
  le_radius n (Qmax r1 r2) = le_radius n r1 || le_radius n r2.
Proof.
  rewrite !le_radius_floor.
  destruct (Q.max_spec r1 r2) as [[Hlt Heq] | [Hle Heq]];
    rewrite (Qfloor_comp _ _ Heq).
  - apply Qlt_le_weak, Qfloor_resp_le in Hlt.
    destruct (Z.leb_spec n (Qfloor r1)), (Z.leb_spec n (Qfloor r2));
      simpl; try done; lia.
  - apply Qfloor_resp_le in Hle.
    destruct (Z.leb_spec n (Qfloor r1)), (Z.leb_spec n (Qfloor r2));
      simpl; try done; lia.
Qed.

Lemma touch_touch_max (r1 r2 : Q) (e : GaussInt.t) :
  touch r2 (touch r1 e) = touch (Qmax r1 r2) e.
Proof.
  unfold touch at 2 3. unfold count_entry.
  destruct (norm_fills e) as [Hn _].
  destruct (GaussInt.norm e) as [n e1]. simpl in Hn.
  rewrite le_radius_max.
  destruct (le_radius n r1) eqn:Hle1.
  - destruct (isprime_fills e1) as [Hp Hk]. specialize (Hk n Hn).
    destruct (GaussInt.isprime e1) as [p e2]. simpl in Hp, Hk |- *.
    unfold touch, count_entry. rewrite (norm_filled e2 n Hk).
    destruct (le_radius n r2); [| done].
    by rewrite (isprime_filled e2 p Hp).
  - simpl. unfold touch, count_entry.
    by rewrite (norm_filled e1 n Hn).
Qed.

Lemma fresh_norm (a b : nat) :
  fst (GaussInt.norm (GaussInt.mk (Z.of_nat a) (Z.of_nat b) None None))
  = Z.of_nat a ^ 2 + Z.of_nat b ^ 2.
Proof. reflexivity. Qed.

Lemma fresh_outside (r1 r2 : Q) (a b : nat) :
  nonneg r1 → (limit_of r1 ≤ a ∨ limit_of r1 ≤ b)%nat →
  fresh r2 a b = fresh (Qmax r1 r2) a b.
Proof.
  intros H1 Hab. unfold fresh. apply touch_le_eq.
  rewrite fresh_norm, le_radius_max.
  replace (le_radius _ r1) with false; [done |].
  symmetry. rewrite le_radius_floor. apply Z.leb_gt.
  pose proof (limit_of_spec r1 (nonneg_Qle_bool r1 H1)). nia.
Qed.

Lemma fresh_seq_lookup (r : Q) (a lo len b : nat) (e : GaussInt.t) :
  (fresh r a <$> seq lo len) !! b = Some e →
  e = fresh r a (lo + b) ∧ (b < len)%nat.
Proof.
  rewrite list_lookup_fmap. intros H.
  destruct (seq lo len !! b) as [k |] eqn:Hk; [| done].
  apply lookup_seq in Hk as [-> Hb]. simpl in H. split; [congruence | lia].
Qed.

Lemma full_lookup (r : Q) (N a : nat) :
  full r N !! a =
  if decide (a < N)%nat then Some (fresh r a <$> seq 0 N) else None.
Proof.
  unfold full. rewrite list_lookup_fmap. case_decide.
  - by rewrite lookup_seq_lt.
  - by rewrite lookup_seq_ge by lia.
Qed.

Lemma full_length (r : Q) (N : nat) : length (full r N) = N.
Proof. unfold full. by rewrite length_fmap, length_seq. Qed.

Lemma full_square (r : Q) (N : nat) : square N (full r N).
Proof.
  split; [split; [apply full_length | split] |].
  - intros a row. rewrite full_lookup. case_decide; [| done].
    intros [= <-]. by rewrite length_fmap, length_seq.
  - intros a b row e. rewrite full_lookup. case_decide; [| done].
    intros [= <-]. intros [-> _]%fresh_seq_lookup.
    by rewrite fresh_coords.
  - intros a b row e. rewrite full_lookup. case_decide; [| done].
    intros [= <-]. intros [-> _]%fresh_seq_lookup.
    apply fresh_memo_ok.
Qed.

Lemma touch_grid_full (r1 r2 : Q) (N : nat) :
  touch_grid r2 (full r1 N) = full (Qmax r1 r2) N.
Proof.
  unfold touch_grid, full. rewrite <- list_fmap_compose.
  apply list_fmap_ext. intros _ a _. simpl.
  rewrite <- list_fmap_compose. apply list_fmap_ext. intros _ b _. simpl.
  apply touch_touch_max.
Qed.

Lemma extended_full (r r' : Q) (n : nat) :
  (∀ a b, (n ≤ a ∨ n ≤ b)%nat → fresh r a b = fresh r' a b) →
  extended r n n (full r' n) = full r' (n `max` limit_of r).
Proof.
  intros Hout. apply list_eq. intros a.
  rewrite extended_lookup by apply full_length. rewrite !full_lookup.
  set (L := limit_of r).
  assert (Hnew : ∀ lo len, (n ≤ a ∨ n ≤ lo)%nat →
            fresh r a <$> seq lo len = fresh r' a <$> seq lo len).
  { intros lo len Hlo. apply list_fmap_ext. intros i b Hb.
    apply lookup_seq in Hb as [-> _]. apply Hout. lia. }
  destruct (decide (a < n)%nat) as [Ha | Ha].
  - rewrite decide_True by lia. simpl. f_equal.
    destruct (decide (a < n `min` L)%nat) as [HaL | HaL].
    + unfold range. rewrite Hnew by lia. rewrite <- fmap_app.
      f_equal. destruct (decide (L ≤ n)%nat).
      * replace (L - n)%nat with 0%nat by lia. rewrite app_nil_r.
        by replace (n `max` L)%nat with n by lia.
      * replace (n `max` L)%nat with L by lia. symmetry.
        apply seq_split. lia.
    + by replace (n `max` L)%nat with n by lia.
  - destruct (decide (a < L)%nat) as [HaL | HaL].
    + rewrite decide_True by lia. f_equal. unfold range.
      rewrite Hnew by lia. rewrite Nat.sub_0_r.
      by replace (n `max` L)%nat with L by lia.
    + by rewrite decide_False by lia.
Qed.

(** One call on the grid a call from the seed leaves. *)
Lemma ti_no_waste_full (r1 r2 : Q) (n : nat) :
  nonneg r1 → nonneg r2 → (1 ≤ n)%nat → (limit_of r1 ≤ n)%nat →
  ti_no_waste r2 (Some (full r1 n)) =
  Ok (total r2, full (Qmax r1 r2) (n `max` limit_of r2)).
Proof.
  intros H1 H2 Hn HL.
  destruct (ti_no_waste_square r2 n (full r1 n) Hn (full_square r1 n)
              (nonneg_Qle_bool r2 H2)) as (g' & -> & _ & ->).
  rewrite touch_grid_full, extended_full; [done |].
  intros a b Hab. apply fresh_outside; [done | lia].
Qed.

Lemma Qmax_same (r : Q) (n : Z) :
  le_radius n (Qmax r r) = le_radius n r.
Proof. rewrite le_radius_max. by destruct (le_radius n r). Qed.

Lemma ti_no_waste_seed (r : Q) :
  nonneg r → ti_no_waste r None = Ok (total r, full r (size_for r)).
Proof.
  intros Hr. rewrite ti_no_waste_None.
  destruct (ti_no_waste_square r 2 seed_grid ltac:(lia) seed_square
              (nonneg_Qle_bool r Hr)) as (g' & -> & _ & ->).
  change (touch_grid r seed_grid) with (full r 2).
  by rewrite extended_full.
Qed.

Lemma fresh_fields (r : Q) (a b : nat) :
  GaussInt.var_norm (fresh r a b) = Some (Z.of_nat a ^ 2 + Z.of_nat b ^ 2) ∧
  GaussInt.var_isprime (fresh r a b) =
    if le_radius (Z.of_nat a ^ 2 + Z.of_nat b ^ 2) r
    then Some (prime_at (Z.of_nat a) (Z.of_nat b)) else None.
Proof.
  unfold fresh, touch, count_entry.
  set (e := GaussInt.mk (Z.of_nat a) (Z.of_nat b) None None).
  assert (He : memo_ok e) by (split; by left).
  destruct (norm_memo_ok e He) as [Hv He1].
  destruct (norm_fills e) as [Hn Hp]. pose proof (norm_coords e) as Hc.
  destruct (GaussInt.norm e) as [n e1]. simpl in Hv, He1, Hn, Hp, Hc.
  subst n. simpl. destruct (le_radius _ r).
  - destruct (isprime_fills e1) as [Hp2 Hk].
    destruct (isprime_memo_ok e1 He1) as [Hval _].
    destruct (GaussInt.isprime e1) as [p e2].
    unfold GaussInt.coords in Hc. simpl in Hc, Hp2, Hval |- *.
    injection Hc as Ha Hb. rewrite Ha, Hb in Hval.
    specialize (Hk _ Hn). simpl in Hk. rewrite Hk, Hp2. by subst p.
  - by simpl.
Qed.

(** X8. A call from no grid with a radius [r >= 0] returns the square grid
    of size [max(2, int(np.sqrt(r)) + 1)], the root being the rounded
    double (size 6 for the float just below 25): every place [(a, b)] below
    that size
    holds the entity of those coordinates with its norm cached, and with
    its primality cached exactly when its norm is at most [r] (no
    primality test is run for a point beyond the radius). *)
Theorem X8_first_call_grid (r : Q) :
  nonneg r →
  ∃ c g,
    ti_no_waste r None = Ok (c, g) ∧ length g = size_for r ∧
    (∀ a row, g !! a = Some row → length row = size_for r) ∧
    ∀ a b, (a < size_for r)%nat → (b < size_for r)%nat →
      ∃ row e,
        g !! a = Some row ∧ row !! b = Some e ∧
        GaussInt.coords e = (Z.of_nat a, Z.of_nat b) ∧
        GaussInt.var_norm e
          = Some (Z.of_nat a * Z.of_nat a + Z.of_nat b * Z.of_nat b) ∧
        GaussInt.var_isprime e =
          if le_radius (Z.of_nat a * Z.of_nat a + Z.of_nat b * Z.of_nat b) r
          then Some (prime_at (Z.of_nat a) (Z.of_nat b)) else None.
Proof.
  intros Hr. exists (total r), (full r (size_for r)).
  split; [by apply ti_no_waste_seed |]. split; [apply full_length |].
  destruct (full_square r (size_for r)) as [(_ & Hm & _) _].
  split; [exact Hm |]. intros a b Ha Hb.
  exists (fresh r a <$> seq 0 (size_for r)), (fresh r a b).
  split; [by rewrite full_lookup, decide_True |].
  split; [by rewrite list_lookup_fmap, lookup_seq_lt |].
  split; [apply fresh_coords |].
  destruct (fresh_fields r a b) as [Hn Hp].
  replace (Z.of_nat a * Z.of_nat a + Z.of_nat b * Z.of_nat b)
    with (Z.of_nat a ^ 2 + Z.of_nat b ^ 2) by lia.
  done.
Qed.

Lemma X8_witness :
  size_for below_25 = 6%nat ∧
  ∃ c g,
    ti_no_waste below_25 None = Ok (c, g) ∧ length g = size_for below_25 ∧
    (∀ a row, g !! a = Some row → length row = size_for below_25) ∧
    ∀ a b, (a < size_for below_25)%nat → (b < size_for below_25)%nat →
      ∃ row e,
        g !! a = Some row ∧ row !! b = Some e ∧
        GaussInt.coords e = (Z.of_nat a, Z.of_nat b) ∧
        GaussInt.var_norm e
          = Some (Z.of_nat a * Z.of_nat a + Z.of_nat b * Z.of_nat b) ∧
        GaussInt.var_isprime e =
          if le_radius (Z.of_nat a * Z.of_nat a + Z.of_nat b * Z.of_nat b)
               below_25
          then Some (prime_at (Z.of_nat a) (Z.of_nat b)) else None.
Proof.
  split; [by vm_compute |].
  apply (X8_first_call_grid below_25). unfold nonneg, Qle. simpl. lia.
Defined.

(** ** Only the integer part of the radius is counted *)

(** X3. The count sees a radius only through its integer part: [ti]
    returns for [r] what it returns for [floor(r)], raising cases included,
    and so does the count of [ti_no_waste] called with no grid. The grids
    can differ: for the float just below 25 the grid has size 6, for 24
    size 5. *)
Theorem X3_radius_integer_part (r : Q) :
  ti r = ti (inject_Z (Qfloor r)) ∧
  (nonneg r →
   ∃ c g g',
     ti_no_waste r None = Ok (c, g) ∧
     ti_no_waste (inject_Z (Qfloor r)) None = Ok (c, g') ∧
     ti r = Ok c) ∧
  (Qfloor below_25 = 24 ∧
   ∃ c g g',
     ti_no_waste below_25 None = Ok (c, g) ∧
     ti_no_waste 24 None = Ok (c, g') ∧
     length g = 6%nat ∧ length g' = 5%nat).
Proof.
  assert (Hnn : ∀ q, nonneg q → nonneg (inject_Z (Qfloor q))).
  { intros q Hq. unfold nonneg. rewrite <- (Zle_Qle 0).
    by apply Qfloor_nonneg, nonneg_Qle_bool. }
  assert (Hseed : ∀ q, nonneg q →
            ti_no_waste (inject_Z (Qfloor q)) None =
            Ok (total q, full (inject_Z (Qfloor q))
                           (size_for (inject_Z (Qfloor q))))).
  { intros q Hq. rewrite (ti_no_waste_seed _ (Hnn q Hq)).
    by rewrite <- total_floor by by apply nonneg_Qle_bool. }
  split; [| split].
  - destruct (Qle_bool 0 r) eqn:Hr.
    + assert (Hq : nonneg r) by by apply Qle_bool_iff.
      rewrite (ti_eq r Hr).
      rewrite (ti_eq _ (nonneg_Qle_bool _ (Hnn r Hq))).
      change (Ok (total r) = Ok (total (inject_Z (Qfloor r)))).
      by rewrite <- total_floor.
    + unfold ti, int_np_sqrt. cbn [num_value np_fits negb]. rewrite Hr.
      replace (Qle_bool 0 (inject_Z (Qfloor r))) with false; [done |].
      change (Qle_bool 0 (inject_Z (Qfloor r)))
        with (le_radius 0 (inject_Z (Qfloor r))).
      rewrite le_radius_floor, Qfloor_Z, <- le_radius_floor. by symmetry.
  - intros Hr. eexists _, _, _. split; [by apply ti_no_waste_seed |].
    split; [by apply Hseed |]. by apply ti_eq, nonneg_Qle_bool.
  - split; [by vm_compute |].
    assert (Hb : nonneg below_25) by (unfold nonneg, Qle; simpl; lia).
    eexists _, _, _. split; [by apply ti_no_waste_seed |].
    split; [exact (Hseed below_25 Hb) |].
    rewrite !full_length. split; by vm_compute.
Qed.

(** ** Sequences of calls: the history does not matter *)

Lemma nonneg_max (r1 r2 : Q) : nonneg r1 → nonneg (Qmax r1 r2).
Proof.
  unfold nonneg. intros H. eapply Qle_trans; [exact H |]. apply Q.le_max_l.
Qed.

Lemma limit_of_max (r1 r2 : Q) :
  limit_of (Qmax r1 r2) = (limit_of r1 `max` limit_of r2)%nat.
Proof.
  destruct (Q.max_spec r1 r2) as [[Hlt Heq] | [Hle Heq]];
    unfold limit_of at 1; rewrite (np_floor_sqrt_comp _ _ Heq);
    fold (limit_of r1); fold (limit_of r2).
  - apply Qlt_le_weak, limit_of_mono in Hlt. lia.
  - apply limit_of_mono in Hle. lia.
Qed.

Lemma feed_full (rs : list Q) (R : Q) (c0 : Z) :
  nonneg R → Forall nonneg rs →
  ∃ tr c,
    feed rs (Some (full R (size_for R))) = Ok tr ∧
    last ((c0, full R (size_for R)) :: tr)
      = Some (c, full (foldl Qmax R rs) (size_for (foldl Qmax R rs))).
Proof.
  intros HR Hrs. revert R c0 HR.
  induction Hrs as [| r rs Hr Hrs IH]; intros R c0 HR.
  { by exists [], c0. }
  cbn [feed foldl].
  rewrite ti_no_waste_full; [| done | done | unfold size_for; lia ..].
  cbn [mbind result_bind].
  replace (size_for R `max` limit_of r)%nat with (size_for (Qmax R r)).
  2:{ unfold size_for. rewrite limit_of_max. lia. }
  destruct (IH (Qmax R r) (total r) (nonneg_max R r HR)) as (tr & c & -> & Hl).
  cbn [mbind result_bind]. eexists _, c. split; [done |].
  rewrite last_cons. rewrite Hl. done.
Qed.

(** X7. The grid does not depend on the history of calls: after any
    sequence of non-negative radii fed from no grid, the grid returned last
    is the very grid, memo fields included, that one call from no grid with
    the largest of the radii returns. *)
Theorem X7_grid_history_independent (r0 : Q) (rs : list Q) :
  Forall nonneg (r0 :: rs) →
  ∃ tr c g c',
    feed (r0 :: rs) None = Ok tr ∧ last tr = Some (c, g) ∧
    ti_no_waste (foldl Qmax r0 rs) None = Ok (c', g).
Proof.
  intros Hall. apply Forall_cons in Hall as [H0 Hrs].
  cbn [feed]. rewrite (ti_no_waste_seed r0 H0). cbn [mbind result_bind].
  destruct (feed_full rs r0 (total r0) H0 Hrs) as (tr & c & -> & Hl).
  cbn [mbind result_bind]. eexists _, c, _, _. split; [done |].
  split; [exact Hl |]. apply ti_no_waste_seed.
  clear Hl. revert r0 H0. induction Hrs as [| r rs Hr Hrs IH]; intros r0 H0;
    [done |].
  cbn [foldl]. apply IH. by apply nonneg_max.
Qed.

Lemma X7_witness :
  ∃ tr c g c',
    feed [1; 0; 17; 5 # 2]%Q None = Ok tr ∧ last tr = Some (c, g) ∧
    ti_no_waste (foldl Qmax 1%Q [0; 17; 5 # 2]%Q) None = Ok (c', g).
Proof.
  apply (X7_grid_history_independent 1%Q [0; 17; 5 # 2]%Q).
  repeat constructor; unfold nonneg, Qle; simpl; lia.
Defined.

(** X1. The radii need not increase: for any sequence of non-negative
    radii fed from no grid (the drivers feed 1, 0, 1, 2, ... and 0, 0, 0.1,
    ...), every call returns, and the count of each call is the value of
    [ti] at the radius of that call. *)
Theorem X1_every_count_equals_ti (rs : list Q) :
  Forall nonneg rs →
  ∃ tr, feed rs None = Ok tr ∧ length tr = length rs ∧
    ∀ i (r : Q), rs !! i = Some r →
      ∃ c g, tr !! i = Some (c, g) ∧ ti r = Ok c.
Proof.
  intros Hrs.
  destruct (feed_square rs 2 seed_grid ltac:(lia) seed_square Hrs)
    as (tr & Hfeed & Hlen & Hval & _).
  exists tr. rewrite feed_None. split; [done |]. split; [done |].
  intros i r Hi.
  destruct (lookup_lt_is_Some_2 tr i) as [[c g] Hcg].
  { rewrite Hlen. by eapply lookup_lt_Some. }
  exists c, g. split; [done |].
  destruct (Hval _ _ _ _ Hi Hcg) as [-> _].
  apply ti_eq, nonneg_Qle_bool. by eapply Forall_lookup_1 in Hrs.
Qed.

Lemma X1_witness :
  ∃ tr, feed [1; 0; 17; 5 # 2]%Q None = Ok tr ∧ length tr = 4%nat ∧
    ∀ i (r : Q), [1; 0; 17; 5 # 2]%Q !! i = Some r →
      ∃ c g, tr !! i = Some (c, g) ∧ ti r = Ok c.
Proof.
  apply (X1_every_count_equals_ti [1; 0; 17; 5 # 2]%Q).
  repeat constructor; unfold nonneg, Qle; simpl; lia.
Defined.

(** ** Calling again with the same radius *)

Lemma extended_all (P : GaussInt.t → Prop) (r : Q) (n m : nat) (g : grid) :
  length g = n → (∀ a b, P (fresh r a b)) → grid_all P g →
  grid_all P (extended r n m g).
Proof.
  intros Hn Hf Hg a b row e Hrow He.
  apply extended_row_inv in Hrow as
    [(old & Hold & [-> | [_ ->]]) | (_ & _ & ->)]; [| | | done].
  - by eapply Hg.
  - apply lookup_app_Some in He as [He | [Hb He]]; [by eapply Hg |].
    apply fresh_row_lookup in He as [-> _]. apply Hf.
  - apply fresh_row_lookup in He as [-> _]. apply Hf.
Qed.

Lemma touch_grid_settled (r : Q) (g : grid) :
  grid_all (fun e => touch r e = e) g → touch_grid r g = g.
Proof.
  intros Hg. unfold touch_grid. apply list_eq. intros a.
  rewrite list_lookup_fmap. destruct (g !! a) as [row |] eqn:Ha; [| done].
  simpl. f_equal. apply list_eq. intros b. rewrite list_lookup_fmap.
  destruct (row !! b) as [e |] eqn:Hb; [| done]. simpl. f_equal.
  by eapply Hg.
Qed.

(** X4. Calling again with the same radius changes nothing: on a square
    grid with sound memo fields and for [r >= 0], the call returns a count
    and a grid, and the call with the same radius on that grid returns the
    same count and the same grid, memo fields included. *)
Theorem X4_second_call_is_identity (r : Q) (n : nat) (g : grid) :
  (1 ≤ n)%nat → square n g → nonneg r →
  ∃ c g',
    ti_no_waste r (Some g) = Ok (c, g') ∧
    ti_no_waste r (Some g') = Ok (c, g').
Proof.
  intros Hn Hsq Hr. pose proof (nonneg_Qle_bool r Hr) as Hb.
  destruct (ti_no_waste_square r n g Hn Hsq Hb) as (g' & Hcall & Hsq' & Hg').
  exists (total r), g'. split; [done |].
  destruct (ti_no_waste_square r (n `max` limit_of r) g' ltac:(lia) Hsq' Hb)
    as (g'' & -> & _ & ->).
  rewrite extended_within by lia.
  rewrite touch_grid_settled; [done |]. rewrite Hg'.
  destruct Hsq as [(Hlen & _ & _) _].
  apply extended_all.
  - by rewrite touch_grid_length.
  - intros a b. apply touch_touch.
  - intros a b row e. rewrite touch_grid_lookup.
    destruct (g !! a) as [row1 |]; [| done]. intros [= <-].
    rewrite list_lookup_fmap. destruct (row1 !! b) as [e1 |]; [| done].
    intros [= <-]. apply touch_touch.
Qed.

Lemma X4_witness :
  ∃ c g',
    ti_no_waste 17 (Some seed_grid) = Ok (c, g') ∧
    ti_no_waste 17 (Some g') = Ok (c, g').
Proof.
  apply (X4_second_call_is_identity 17 2 seed_grid).
  - lia.
  - apply seed_square.
  - unfold nonneg, Qle. simpl. lia.
Defined.

(** ** [gauss_to_coord_data] *)

Lemma zip_coords (l : list GaussInt.t) :
  zip (GaussInt.a <$> l) (GaussInt.b <$> l) = GaussInt.coords <$> l.
Proof. induction l as [| e l IH]; [done |]. simpl. f_equal. exact IH. Qed.

Lemma coord_data_loop_eq (ints : list GaussInt.t) (prime_only : bool)
    (x y : list Z) :
  coord_data_loop ints prime_only x y =
  (x ++ (GaussInt.a <$> List.filter (kept prime_only) ints),
   y ++ (GaussInt.b <$> List.filter (kept prime_only) ints),
   seen prime_only <$> ints).
Proof.
  revert x y. induction ints as [| cur ints IH]; intros x y.
  { simpl. by rewrite !app_nil_r. }
  cbn [coord_data_loop List.filter fmap list_fmap].
  destruct prime_only.
  - assert (Hk : kept true cur = fst (GaussInt.isprime cur)) by done.
    assert (Hs : seen true cur = snd (GaussInt.isprime cur)) by done.
    rewrite Hk, Hs. cbn [negb].
    pose proof (isprime_coords cur) as Hc. unfold GaussInt.coords in Hc.
    destruct (GaussInt.isprime cur) as [p cur1]. cbn [fst snd] in Hc |- *.
    injection Hc as Ha Hb. destruct p; rewrite IH; [| done].
    cbn [fmap list_fmap]. by rewrite Ha, Hb, <- !app_assoc.
  - assert (Hk : kept false cur = true) by done.
    assert (Hs : seen false cur = cur) by done.
    rewrite Hk, Hs. cbn [negb]. rewrite IH.
    cbn [fmap list_fmap]. by rewrite <- !app_assoc.
Qed.

Lemma filter_fmap {A B : Type} (f : B → bool) (h : A → B) (l : list A) :
  List.filter f (h <$> l) = h <$> List.filter (fun x => f (h x)) l.
Proof.
  induction l as [| x l IH]; [done |]. cbn [fmap list_fmap List.filter].
  destruct (f (h x)); cbn [fmap list_fmap]; by rewrite IH.
Qed.

Lemma filter_ext_Forall {A : Type} (f g : A → bool) (l : list A) :
  Forall (fun x => f x = g x) l → List.filter f l = List.filter g l.
Proof.
  induction 1 as [| x l Hx Hl IH]; [done |]. simpl. by rewrite Hx, IH.
Qed.

(** X13. [gauss_to_coord_data] returns two lists of the same length that
    pair up to the coordinates of the entities it keeps, in the order of
    the input: all of them when [prime_only] is unset (then no entity is
    touched), and those for which [isprime()] holds when it is set, which
    for entities with sound memo fields are the points the oracle accepts.
    The entities keep their coordinates. *)
Theorem X13_coord_data (ints : list GaussInt.t) (prime_only : bool) :
  ∃ x y ints',
    gauss_to_coord_data ints prime_only = (x, y, ints') ∧
    length x = length y ∧
    zip x y = GaussInt.coords <$> List.filter (kept prime_only) ints ∧
    GaussInt.coords <$> ints' = GaussInt.coords <$> ints ∧
    (prime_only = false →
       zip x y = GaussInt.coords <$> ints ∧ ints' = ints) ∧
    (prime_only = true → Forall memo_ok ints →
       zip x y =
       List.filter (fun c => prime_at c.1 c.2) (GaussInt.coords <$> ints)).
Proof.
  unfold gauss_to_coord_data. rewrite coord_data_loop_eq. simpl.
  eexists _, _, _. split; [done |].
  split; [by rewrite !length_fmap |]. split; [apply zip_coords |].
  split; [| split].
  - rewrite <- list_fmap_compose. apply list_fmap_ext. intros _ e _.
    unfold seen. simpl. destruct prime_only; [apply isprime_coords | done].
  - intros ->. rewrite zip_coords. split.
    + f_equal. induction ints as [| e l IH]; [done |]. simpl. by rewrite IH.
    + unfold seen. apply list_fmap_id.
  - intros -> Hm. rewrite zip_coords, filter_fmap. f_equal.
    apply filter_ext_Forall. eapply Forall_impl; [exact Hm |].
    intros e He. unfold kept. simpl.
    by destruct (isprime_memo_ok e He) as [-> _].
Qed.

(** ** The data of the drivers *)

Lemma collect_rows_eq (g : grid) (prime_only : bool) (x y : list Z) :
  collect_rows g prime_only x y =
  (x ++ (GaussInt.a <$> List.filter (kept prime_only) (concat g)),
   y ++ (GaussInt.b <$> List.filter (kept prime_only) (concat g)),
   (fun row : list GaussInt.t => seen prime_only <$> row) <$> g).
Proof.
  revert x y. induction g as [| row g IH]; intros x y.
  { simpl. by rewrite !app_nil_r. }
  cbn [collect_rows concat]. unfold gauss_to_coord_data.
  rewrite coord_data_loop_eq, IH. cbn [app fmap list_fmap].
  by rewrite List.filter_app, !fmap_app, !app_assoc.
Qed.

Lemma concat_rows (r : Q) (N : nat) (rows : list nat) :
  concat ((fun a => fresh r a <$> seq 0 N) <$> rows) =
  (fun p => fresh r p.1 p.2) <$> (a ← rows; (fun b => (a, b)) <$> seq 0 N).
Proof.
  induction rows as [| a rows IH]; [done |].
  cbn [fmap list_fmap concat mbind list_bind]. rewrite fmap_app, IH.
  f_equal. by rewrite <- list_fmap_compose.
Qed.

Lemma concat_full (r : Q) (N : nat) :
  concat (full r N) = (fun p => fresh r p.1 p.2) <$> lattice N.
Proof. apply concat_rows. Qed.

Lemma lattice_elem (B a b : nat) :
  (a, b) ∈ lattice B ↔ (a < B)%nat ∧ (b < B)%nat.
Proof.
  unfold lattice. rewrite list_elem_of_bind. split.
  - intros (a' & Hb & Ha). apply list_elem_of_fmap in Hb as (b' & [= -> ->] & Hb).
    apply elem_of_seq in Ha, Hb. lia.
  - intros [Ha Hb]. exists a. split.
    + apply list_elem_of_fmap. exists b. split; [done |].
      apply elem_of_seq. lia.
    + apply elem_of_seq. lia.
Qed.

(** X14. [plot_primes(size)], for [size >= 0], hands to the scatter plot
    the points [(a, b)] that [isprime] accepts in the whole square
    [a, b < max(2, int(np.sqrt(size)) + 1)], the root being the rounded
    double, row by row: every accepted point of the square is plotted, also
    one whose norm exceeds [size]. *)
Theorem X14_plot_primes_points (size : Q) :
  nonneg size →
  ∃ x y,
    plot_primes size = Ok (x, y) ∧ length x = length y ∧
    zip x y =
      point <$> List.filter (fun p => prime_at (Z.of_nat p.1) (Z.of_nat p.2))
                  (lattice (size_for size)) ∧
    ∀ a b, (a < size_for size)%nat → (b < size_for size)%nat →
      prime_at (Z.of_nat a) (Z.of_nat b) = true →
      (Z.of_nat a, Z.of_nat b) ∈ zip x y.
Proof.
  intros Hr. unfold plot_primes. rewrite (ti_no_waste_seed size Hr).
  cbn [mbind result_bind]. rewrite collect_rows_eq. cbn [app].
  eexists _, _. split; [done |]. split; [by rewrite !length_fmap |].
  assert (Hzip : zip (GaussInt.a <$> List.filter (kept true)
                        (concat (full size (size_for size))))
                     (GaussInt.b <$> List.filter (kept true)
                        (concat (full size (size_for size)))) =
                 point <$> List.filter
                   (fun p => prime_at (Z.of_nat p.1) (Z.of_nat p.2))
                   (lattice (size_for size))).
  { rewrite zip_coords, concat_full, filter_fmap, <- list_fmap_compose.
    rewrite (filter_ext_Forall _
               (fun p => prime_at (Z.of_nat p.1) (Z.of_nat p.2))).
    - apply list_fmap_ext. intros _ [a b] _. simpl. apply fresh_coords.
    - apply Forall_forall. intros [a b] _. unfold kept. simpl.
      destruct (isprime_memo_ok _ (fresh_memo_ok size a b)) as [-> _].
      pose proof (fresh_coords size a b) as Hc.
      unfold GaussInt.coords in Hc. by injection Hc as -> ->. }
  split; [exact Hzip |]. intros a b Ha Hb Hp. rewrite Hzip.
  apply list_elem_of_fmap. exists (a, b). split; [done |].
  apply list_elem_of_In, filter_In. split; [| done].
  apply list_elem_of_In, lattice_elem. done.
Qed.

Lemma X14_witness :
  size_for below_25 = 6%nat ∧
  ∃ x y,
    plot_primes below_25 = Ok (x, y) ∧ length x = length y ∧
    zip x y =
      point <$> List.filter (fun p => prime_at (Z.of_nat p.1) (Z.of_nat p.2))
                  (lattice (size_for below_25)) ∧
    ∀ a b, (a < size_for below_25)%nat → (b < size_for below_25)%nat →
      prime_at (Z.of_nat a) (Z.of_nat b) = true →
      (Z.of_nat a, Z.of_nat b) ∈ zip x y.
Proof.
  split; [by vm_compute |].
  apply (X14_plot_primes_points below_25). unfold nonneg, Qle. simpl. lia.
Defined.

Lemma plot_ti_loop_eq (t : list Q) (n : nat) (g : grid) (s : list Z) :
  (1 ≤ n)%nat → square n g → Forall nonneg t →
  plot_ti_loop t g s = Ok (s ++ (total <$> t)).
Proof.
  intros Hn Hsq Ht. revert n g s Hn Hsq.
  induction Ht as [| r t Hr Ht IH]; intros n g s Hn Hsq.
  { simpl. by rewrite app_nil_r. }
  cbn [plot_ti_loop].
  destruct (ti_no_waste_square r n g Hn Hsq (nonneg_Qle_bool r Hr))
    as (g' & -> & Hsq' & _).
  cbn [mbind result_bind].
  rewrite (IH (n `max` limit_of r)%nat) by (lia || done).
  cbn [fmap list_fmap]. by rewrite <- app_assoc.
Qed.

(** X15. [plot_ti] plots, for a sample [t] of non-negative radii, one
    count per radius, each the value of [ti] at that radius; so a larger
    radius of the sample never gets a smaller count. *)
Theorem X15_plot_ti_series (t : list Q) :
  Forall nonneg t →
  ∃ s,
    plot_ti_data t = Ok s ∧ length s = length t ∧
    (∀ i (r : Q), t !! i = Some r → ∃ c, s !! i = Some c ∧ ti r = Ok c) ∧
    (∀ i j ri rj ci cj,
       t !! i = Some ri → t !! j = Some rj →
       s !! i = Some ci → s !! j = Some cj →
       (ri <= rj)%Q → ci <= cj).
Proof.
  intros Ht. unfold plot_ti_data. rewrite (ti_no_waste_int 0) by done.
  change (inject_Z 0) with 0%Q.
  rewrite (ti_no_waste_seed 0) by (unfold nonneg, Qle; simpl; lia).
  cbn [mbind result_bind].
  rewrite (plot_ti_loop_eq t (size_for 0)); [| by vm_compute; lia
                                             | apply full_square | done].
  exists (total <$> t). split; [done |]. split; [by rewrite length_fmap |].
  split.
  - intros i r Hi. exists (total r). rewrite list_lookup_fmap, Hi.
    split; [done |]. apply ti_eq, nonneg_Qle_bool.
    by eapply Forall_lookup_1 in Ht.
  - intros i j ri rj ci cj Hi Hj. rewrite !list_lookup_fmap, Hi, Hj.
    intros [= <-] [= <-] Hle. apply total_mono; [| done].
    by eapply Forall_lookup_1 in Ht.
Qed.

Lemma X15_witness :
  ∃ s,
    plot_ti_data [0; 1 # 10; 1 # 5; 2; 21 # 10]%Q = Ok s ∧
    length s = 5%nat ∧
    (∀ i (r : Q), [0; 1 # 10; 1 # 5; 2; 21 # 10]%Q !! i = Some r →
       ∃ c, s !! i = Some c ∧ ti r = Ok c) ∧
    (∀ i j ri rj ci cj,
       [0; 1 # 10; 1 # 5; 2; 21 # 10]%Q !! i = Some ri →
       [0; 1 # 10; 1 # 5; 2; 21 # 10]%Q !! j = Some rj →
       s !! i = Some ci → s !! j = Some cj →
       (ri <= rj)%Q → ci <= cj).
Proof.
  apply (X15_plot_ti_series [0; 1 # 10; 1 # 5; 2; 21 # 10]%Q).
  repeat constructor; unfold nonneg, Qle; simpl; lia.
Defined.

Lemma debug_loop_eq (rs : list nat) (n : nat) (g : grid)
    (out : list (nat * Z)) :
  (1 ≤ n)%nat → square n g → Forall (fun r => Z.of_nat r < 2 ^ 64) rs →
  debug_loop rs g out =
  Ok (out ++ ((fun r => (r, total (inject_Z (Z.of_nat r)))) <$> rs)).
Proof.
  intros Hn Hsq Hrs. revert n g out Hn Hsq.
  induction Hrs as [| r rs Hr64 Hrs IH]; intros n g out Hn Hsq.
  { simpl. by rewrite app_nil_r. }
  cbn [debug_loop].
  rewrite ti_no_waste_int.
  2:{ cbn [np_fits]. apply andb_true_intro. split.
      - apply Z.leb_le. lia.
      - by apply Z.ltb_lt. }
  assert (Hr : Qle_bool 0 (inject_Z (Z.of_nat r)) = true).
  { apply Qle_bool_iff. rewrite <- (Zle_Qle 0). lia. }
  destruct (ti_no_waste_square _ n g Hn Hsq Hr) as (g' & -> & Hsq' & _).
  cbn [mbind result_bind].
  rewrite (IH (n `max` limit_of (inject_Z (Z.of_nat r)))%nat)
    by (lia || done).
  cbn [fmap list_fmap]. by rewrite <- app_assoc.
Qed.

(** X16. [debug_ti_no_waste] prints 100 lines, and line [r] (from 0) shows
    [r] with the value of [ti(r)], although the grid it reuses was started
    with radius 1 and the radii then restart at 0. *)
Theorem X16_debug_ti_no_waste_lines :
  ∃ out,
    debug_ti_no_waste = Ok out ∧ length out = 100%nat ∧
    ∀ r, (r < 100)%nat →
      ∃ c, out !! r = Some (r, c) ∧ ti (inject_Z (Z.of_nat r)) = Ok c.
Proof.
  unfold debug_ti_no_waste. rewrite (ti_no_waste_int 1) by done.
  change (inject_Z 1) with 1%Q.
  rewrite (ti_no_waste_seed 1) by (unfold nonneg, Qle; simpl; lia).
  cbn [mbind result_bind].
  rewrite (debug_loop_eq _ (size_for 1));
    [| by vm_compute; lia | apply full_square |].
  2:{ apply Forall_forall. intros r Hr%elem_of_seq. lia. }
  eexists. split; [done |]. split; [done |].
  intros r Hr. exists (total (inject_Z (Z.of_nat r))).
  cbn [app]. rewrite list_lookup_fmap. unfold range.
  rewrite lookup_seq_lt by lia. split; [done |].
  apply ti_eq, Qle_bool_iff. rewrite <- (Zle_Qle 0). lia.
Qed.

(** ** The display form *)

Lemma str_int_inj (n n' : Z) : str_int n = str_int n' → n = n'.
Proof.
  unfold str_int. intros H. apply DecimalZ.to_int_inj.
  assert (Hnn : ∀ z, Z.to_int z ≠ Decimal.Pos Decimal.Nil ∧
                     Z.to_int z ≠ Decimal.Neg Decimal.Nil).
  { intros [| p | p]; simpl; split; try done; intros [= Hp];
      by apply DecimalPos.Unsigned.to_uint_nonnil in Hp. }
  destruct (Hnn n) as [H1 H2]. destruct (Hnn n') as [H1' H2'].
  pose proof (DecimalString.NilZero.isi _ H1 H2) as Hi.
  pose proof (DecimalString.NilZero.isi _ H1' H2') as Hi'.
  rewrite H in Hi. congruence.
Qed.

Lemma uint_no_char (c : Ascii.ascii) (d : Decimal.uint) :
  has_char c "0123456789" = false →
  has_char c (DecimalString.NilEmpty.string_of_uint d) = false.
Proof.
  intros Hc. simpl in Hc. rewrite !orb_false_r in Hc.
  repeat (apply orb_false_elim in Hc as [? Hc]).
  induction d as [| d IH | d IH | d IH | d IH | d IH | d IH | d IH | d IH
                  | d IH | d IH]; simpl; [done | ..];
    rewrite IH, orb_false_r; done.
Qed.

Lemma str_int_no_char (c : Ascii.ascii) (n : Z) :
  has_char c "-0123456789" = false → has_char c (str_int n) = false.
Proof.
  intros Hc. simpl in Hc. apply orb_false_elim in Hc as [Hm Hc].
  assert (Hu : ∀ d, has_char c (DecimalString.NilZero.string_of_uint d)
                    = false).
  { intros d. destruct d; try apply (uint_no_char c); try exact Hc.
    simpl in *. rewrite !orb_false_r in *.
    by apply orb_false_elim in Hc as [-> _]. }
  unfold str_int. destruct (Z.to_int n) as [d | d]; simpl.
  - apply Hu.
  - by rewrite Hm, Hu.
Qed.

Lemma split_at_char (c : Ascii.ascii) (s1 s2 t1 t2 : string) :
  has_char c s1 = false → has_char c s2 = false →
  String.append s1 (String c t1) = String.append s2 (String c t2) →
  s1 = s2 ∧ t1 = t2.
Proof.
  revert s2. induction s1 as [| d1 s1 IH]; intros [| d2 s2]; simpl;
    intros H1 H2 Heq.
  - by injection Heq as ->.
  - injection Heq as <- _. apply orb_false_elim in H2 as [H2 _].
    by rewrite Ascii.eqb_refl in H2.
  - injection Heq as -> _. apply orb_false_elim in H1 as [H1 _].
    by rewrite Ascii.eqb_refl in H1.
  - injection Heq as -> Heq.
    apply orb_false_elim in H1 as [_ H1]. apply orb_false_elim in H2 as [_ H2].
    destruct (IH s2 H1 H2 Heq) as [-> ->]. done.
Qed.

(** X17. The display form of an entity built from two ints is
    ["(a,b)"] in decimal, and it determines the point: two entities print
    the same exactly when their coordinates are the same, whatever their
    memo fields hold. *)
Theorem X17_str_determines_point (e1 e2 : GaussInt.t) :
  (GaussInt_str e1 = GaussInt_str e2 ↔
   GaussInt.coords e1 = GaussInt.coords e2) ∧
  GaussInt_str (GaussInt.mk 3 (-4) None None) = "(3,-4)"%string ∧
  GaussInt_str (GaussInt.mk 0 12 (Some false) (Some 144)) = "(0,12)"%string.
Proof.
  split; [| by vm_compute]. split.
  - unfold GaussInt_str. simpl. intros [= Heq].
    apply split_at_char in Heq as [Ha Hb];
      [| by apply str_int_no_char ..].
    apply split_at_char in Hb as [Hb _];
      [| by apply str_int_no_char ..].
    apply str_int_inj in Ha, Hb. unfold GaussInt.coords. congruence.
  - unfold GaussInt.coords, GaussInt_str. by intros [= -> ->].
Qed.
